(** * graphql-lsp: the scanner and the three queries of [server.js]

    A shallow embedding of [src/server.js] and the properties of its
    scanner ([parseGraphQLDefinitions]), word lookup, resolver, span
    expansion and the handlers [onDefinition], [onHover] and
    [onDocumentSymbol].

    JavaScript strings are sequences of UTF-16 code units; they are modelled
    as lists of [N].  Regular expressions are modelled by a small
    backtracking matcher that returns the successes in priority order. *)

From Stdlib Require Import String Ascii.
From Stdlib Require Import List Sorted NArith ZArith Arith Bool Lia.
Import ListNotations.

(** ** JavaScript strings *)

Module JS.

Definition code_unit := N.
Definition jsstring := list code_unit.

(** An ASCII literal as a JavaScript string. *)
Definition lit (s : string) : jsstring :=
  map N_of_ascii (list_ascii_of_string s).

Definition LF : code_unit := 10%N.
Definition QUOTE : code_unit := 34%N.

(** WhiteSpace and LineTerminator code points of ECMAScript: what
    [String.prototype.trim] strips and what [\s] matches. *)
Definition is_space (c : code_unit) : bool :=
  ((9 <=? c) && (c <=? 13) || (c =? 32) || (c =? 160) || (c =? 5760)
   || (8192 <=? c) && (c <=? 8202) || (c =? 8232) || (c =? 8233)
   || (c =? 8239) || (c =? 8287) || (c =? 12288) || (c =? 65279))%N.

(** The class [[a-zA-Z0-9_]]; [\w] without the [i] and [u] flags is the
    same class. *)
Definition is_word (c : code_unit) : bool :=
  ((97 <=? c) && (c <=? 122) || (65 <=? c) && (c <=? 90)
   || (48 <=? c) && (c <=? 57) || (c =? 95))%N.

Definition eq_unit (a b : code_unit) : bool := (a =? b)%N.

Fixpoint drop_while {A : Type} (p : A -> bool) (s : list A) : list A :=
  match s with
  | [] => []
  | c :: t => if p c then drop_while p t else s
  end.

Fixpoint take_while {A : Type} (p : A -> bool) (s : list A) : list A :=
  match s with
  | [] => []
  | c :: t => if p c then c :: take_while p t else []
  end.

(** [s.trim()] *)
Definition trim (s : jsstring) : jsstring :=
  rev (drop_while is_space (rev (drop_while is_space s))).

(** [s.startsWith(p)] *)
Fixpoint startsWith (p s : jsstring) : bool :=
  match p, s with
  | [], _ => true
  | _ :: _, [] => false
  | a :: p', b :: s' => eq_unit a b && startsWith p' s'
  end.

(** [a === b] on strings *)
Fixpoint str_eqb (a b : jsstring) : bool :=
  match a, b with
  | [], [] => true
  | x :: a', y :: b' => eq_unit x y && str_eqb a' b'
  | _, _ => false
  end.

(** [text.split('\n')]: never the empty array. *)
Fixpoint split_lf (s : jsstring) : list jsstring :=
  match s with
  | [] => [[]]
  | c :: t =>
      if eq_unit c LF then [] :: split_lf t
      else match split_lf t with
           | l :: ls => (c :: l) :: ls
           | [] => [[c]]
           end
  end.

(** [arr.join(sep)] on an array of strings. *)
Fixpoint join (sep : jsstring) (arr : list jsstring) : jsstring :=
  match arr with
  | [] => []
  | [x] => x
  | x :: xs => x ++ sep ++ join sep xs
  end.

(** [arr.includes(x)] on an array of strings. *)
Definition includes (arr : list jsstring) (x : jsstring) : bool :=
  existsb (str_eqb x) arr.

(** [arr.find(p)] *)
Definition find {A : Type} (p : A -> bool) (arr : list A) : option A :=
  List.find p arr.

End JS.

(** ** Regular expressions *)

Module Regex.
Import JS.

Inductive regex : Type :=
| REmpty
| RChar (p : code_unit -> bool)      (* a literal or a character class *)
| RBol                               (* ^ without the m flag *)
| REol                               (* $ without the m flag *)
| RSeq (a b : regex)
| RAlt (a b : regex)
| RPlus (a : regex)                  (* greedy + *)
| RGroup (i : nat) (a : regex)       (* the i-th capturing group *)
| RLook (a : regex).                 (* (?= ) *)

(** A matcher state: the index reached, the input left from there and
    the captures, the latest first. *)
Record mstate : Type := MState {
  endIndex : nat;
  rest : jsstring;
  captures : list (nat * jsstring)
}.

Definition advance (x : mstate) (t : jsstring) : mstate :=
  MState (S (endIndex x)) t (captures x).

Definition capture (i : nat) (x y : mstate) : mstate :=
  MState (endIndex y) (rest y)
         ((i, firstn (endIndex y - endIndex x) (rest x)) :: captures y).

(** Zero or more greedy iterations of the matcher [m], each of which
    has to consume input; [fuel] bounds the iterations and the length of
    the input left is enough. *)
Fixpoint star (m : mstate -> list mstate) (fuel : nat) (x : mstate)
  : list mstate :=
  match fuel with
  | 0 => [x]
  | S f =>
      flat_map (fun y => if length (rest y) <? length (rest x)
                         then star m f y else [])
               (m x)
      ++ [x]
  end.

(** All the ways [r] matches from the state [x], in the order in which a
    backtracking matcher tries them: the first is the match. *)
Fixpoint rmatch (r : regex) (x : mstate) : list mstate :=
  match r with
  | REmpty => [x]
  | RChar p =>
      match rest x with
      | c :: t => if p c then [advance x t] else []
      | [] => []
      end
  | RBol => if endIndex x =? 0 then [x] else []
  | REol => match rest x with [] => [x] | _ :: _ => [] end
  | RSeq a b => flat_map (rmatch b) (rmatch a x)
  | RAlt a b => rmatch a x ++ rmatch b x
  | RPlus a =>
      flat_map (fun y => star (rmatch a) (length (rest y)) y) (rmatch a x)
  | RGroup i a => map (capture i x) (rmatch a x)
  | RLook a =>
      match rmatch a x with
      | [] => []
      | y :: _ => [MState (endIndex x) (rest x) (captures y)]
      end
  end.

(** The states a greedy repetition of the class [p] can stop in from
    index [i] with [s] left, the longest first. *)
Fixpoint greedy (p : code_unit -> bool) (i : nat) (s : jsstring)
         (cs : list (nat * jsstring)) : list mstate :=
  match s with
  | c :: t =>
      if p c then greedy p (S i) t cs ++ [MState i s cs]
      else [MState i s cs]
  | [] => [MState i s cs]
  end.

(** A literal string. *)
Fixpoint RLit (s : jsstring) : regex :=
  match s with
  | [] => REmpty
  | c :: t => RSeq (RChar (eq_unit c)) (RLit t)
  end.

(** The result of a successful [exec]: [index], the matched text
    [m[0]] and the groups. *)
Record match_result : Type := MatchResult {
  index : nat;
  matched : jsstring;
  groups : list (nat * jsstring)
}.

Fixpoint group (i : nat) (gs : list (nat * jsstring)) : option jsstring :=
  match gs with
  | [] => None
  | (j, s) :: gs' => if i =? j then Some s else group i gs'
  end.

(** The first position from [i] on, with [suffix] the input from [i],
    at which [r] matches. *)
Fixpoint exec_at (r : regex) (i : nat) (suffix : jsstring)
  : option match_result :=
  match rmatch r (MState i suffix []) with
  | y :: _ => Some (MatchResult i (firstn (endIndex y - i) suffix) (captures y))
  | [] =>
      match suffix with
      | [] => None
      | _ :: t => exec_at r (S i) t
      end
  end.

(** [r.exec(input)] with [r.lastIndex = lastIndex]. *)
Definition exec (r : regex) (input : jsstring) (lastIndex : nat)
  : option match_result :=
  if length input <? lastIndex then None
  else exec_at r lastIndex (skipn lastIndex input).

Definition end_of (m : match_result) : nat := index m + length (matched m).

(** From [x] to [y] the matcher has moved over [n] code units of the
    input. *)
Definition advances (x y : mstate) : Prop :=
  exists n, n <= length (rest x)
            /\ rest y = skipn n (rest x)
            /\ endIndex y = endIndex x + n.

(** [input.match(r)] for [r] without the g flag. *)
Definition str_match (r : regex) (input : jsstring) : option match_result :=
  exec r input 0.

(** The loop of [input.match(r)] for [r] with the g flag: the matches
    from [lastIndex] on, an empty match advancing by one. *)
Fixpoint match_all_from (fuel : nat) (r : regex) (input : jsstring)
         (lastIndex : nat) : list jsstring :=
  match fuel with
  | 0 => []
  | S f =>
      match exec r input lastIndex with
      | None => []
      | Some m =>
          matched m ::
          match_all_from f r input
            (if length (matched m) =? 0 then S (end_of m) else end_of m)
      end
  end.

(** [(input.match(r) || []).length] for [r] with the g flag. *)
Definition match_count (r : regex) (input : jsstring) : nat :=
  length (match_all_from (2 + length input) r input 0).

End Regex.

(** ** Values of the language server protocol *)

Module LSP.
Import JS.

Record Position : Type := mkPosition { line : nat; character : nat }.
Record Range : Type := mkRange { start : Position; end_ : Position }.
Record Location : Type := mkLocation { uri : jsstring; range : Range }.

(** [{ contents: { kind, value } }] *)
Record Hover : Type := mkHover { contents_kind : jsstring; contents_value : jsstring }.

(** The members of [SymbolKind] that [server.js] uses. *)
Inductive SymbolKind : Type := Class | Enum | Interface | Constant | Struct.

End LSP.

(** ** Objects used as tables *)

Module Obj.
Import JS.

(** What [Object.prototype] holds: built-in functions and, behind the
    accessor [__proto__], the prototype object itself. *)
Inductive proto_member : Type :=
| NativeFunction (fname : jsstring)
| PrototypeObject.

Definition Object_prototype : list (jsstring * proto_member) :=
  [ (lit "constructor", NativeFunction (lit "Object"));
    (lit "__defineGetter__", NativeFunction (lit "__defineGetter__"));
    (lit "__defineSetter__", NativeFunction (lit "__defineSetter__"));
    (lit "hasOwnProperty", NativeFunction (lit "hasOwnProperty"));
    (lit "__lookupGetter__", NativeFunction (lit "__lookupGetter__"));
    (lit "__lookupSetter__", NativeFunction (lit "__lookupSetter__"));
    (lit "isPrototypeOf", NativeFunction (lit "isPrototypeOf"));
    (lit "propertyIsEnumerable", NativeFunction (lit "propertyIsEnumerable"));
    (lit "toString", NativeFunction (lit "toString"));
    (lit "valueOf", NativeFunction (lit "valueOf"));
    (lit "__proto__", PrototypeObject);
    (lit "toLocaleString", NativeFunction (lit "toLocaleString")) ].

(** The value of [obj[key]] for an object literal [obj] whose own
    properties hold values of type [A]. *)
Inductive property (A : Type) : Type :=
| Own (a : A)
| Inherited (m : proto_member)
| Undefined.
Arguments Own {A} a.
Arguments Inherited {A} m.
Arguments Undefined {A}.

Fixpoint own_property {A : Type} (props : list (jsstring * A)) (key : jsstring)
  : option A :=
  match props with
  | [] => None
  | (k, v) :: props' => if str_eqb k key then Some v else own_property props' key
  end.

(** [obj[key]]: the own property, else the one inherited from
    [Object.prototype], else [undefined]. *)
Definition get {A : Type} (obj : list (jsstring * A)) (key : jsstring)
  : property A :=
  match own_property obj key with
  | Some v => Own v
  | None =>
      match own_property Object_prototype key with
      | Some m => Inherited m
      | None => Undefined
      end
  end.

(** Truthiness of [obj[key]] for a table of strings. *)
Definition truthy (p : property jsstring) : bool :=
  match p with
  | Own s => negb (length s =? 0)
  | Inherited _ => true
  | Undefined => false
  end.

(** What [string + obj[key]] appends for a table of strings. *)
Definition to_string (p : property jsstring) : jsstring :=
  match p with
  | Own s => s
  | Inherited (NativeFunction f) =>
      lit "function " ++ f ++ lit "() { [native code] }"
  | Inherited PrototypeObject => lit "[object Object]"
  | Undefined => lit "undefined"
  end.

End Obj.

(** ** The server *)

Module Server.
Import JS Regex Obj.

(** How a handler ends: with a value, with a [TypeError] (a method
    called on [undefined]) or, in the model only, with a loop cut off. *)
Inductive completion (A : Type) : Type :=
| Normal (a : A)
| TypeError
| OutOfFuel.
Arguments Normal {A} a.
Arguments TypeError {A}.
Arguments OutOfFuel {A}.

Definition bind {A B : Type} (c : completion A) (k : A -> completion B)
  : completion B :=
  match c with
  | Normal a => k a
  | TypeError => TypeError
  | OutOfFuel => OutOfFuel
  end.

Notation "x <- c ;; k" := (bind c (fun x => k))
  (at level 61, c at next level, right associativity).

(** An entry of [definitions]. *)
Record definition : Type := mkDefinition {
  kind : jsstring;
  name : jsstring;
  line : nat;
  text : jsstring;
  documentation : option jsstring
}.

Definition TRIPLE_QUOTE : jsstring := [QUOTE; QUOTE; QUOTE].

Definition keywords : regex :=
  RAlt (RLit (lit "type"))
 (RAlt (RLit (lit "enum"))
 (RAlt (RLit (lit "union"))
 (RAlt (RLit (lit "interface"))
 (RAlt (RLit (lit "scalar"))
       (RLit (lit "input")))))).

Definition not_word (c : code_unit) : bool := negb (is_word c).

(** [[^a-zA-Z0-9_]|$] *)
Definition boundary : regex := RAlt (RChar not_word) REol.

(** [^(type|enum|union|interface|scalar|input)\s+(\w+)], what the
    pattern of the code and the grammar of the specification share. *)
Definition declaration_head : regex :=
  RSeq RBol
 (RSeq (RGroup 1 keywords)
 (RSeq (RPlus (RChar is_space))
       (RGroup 2 (RPlus (RChar is_word))))).

(** [/^(type|enum|union|interface|scalar|input)\s+(\w+)([^a-zA-Z0-9_]|$)/] *)
Definition definitionPattern : regex :=
  RSeq RBol
 (RSeq (RGroup 1 keywords)
 (RSeq (RPlus (RChar is_space))
 (RSeq (RGroup 2 (RPlus (RChar is_word)))
       (RGroup 3 boundary)))).

(** A capture of a match; a group that took no part ([undefined]) reads
    as the empty string.  Groups 1 and 2 take part in every match of
    [definitionPattern]. *)
Definition captured (m : match_result) (i : nat) : jsstring :=
  match group i (groups m) with
  | Some s => s
  | None => []
  end.

(** The variables the callback of [lines.forEach] closes over. *)
Record scan_state : Type := mkScan {
  definitions : list definition;
  currentDoc : list jsstring;
  inMultiLineComment : bool
}.

(** The callback of [lines.forEach] in [parseGraphQLDefinitions]. *)
Definition scan_line (st : scan_state) (ln : jsstring) (index : nat)
  : scan_state :=
  let trimmed := trim ln in
  if startsWith TRIPLE_QUOTE trimmed then
    let quoteCount := match_count (RLit TRIPLE_QUOTE) trimmed in
    if quoteCount =? 2 then
      mkScan (definitions st) (currentDoc st ++ [ln]) (inMultiLineComment st)
    else
      mkScan (definitions st) (currentDoc st ++ [ln])
             (negb (inMultiLineComment st))
  else if inMultiLineComment st then
    mkScan (definitions st) (currentDoc st ++ [ln]) (inMultiLineComment st)
  else if startsWith (lit "#") trimmed then
    mkScan (definitions st) (currentDoc st ++ [ln]) (inMultiLineComment st)
  else
    match str_match definitionPattern ln with
    | Some m =>
        mkScan
          (definitions st ++
             [mkDefinition (captured m 1) (captured m 2) index (trim ln)
                (if 0 <? length (currentDoc st)
                 then Some (join [LF] (currentDoc st)) else None)])
          []
          (inMultiLineComment st)
    | None =>
        if 0 <? length trimmed then
          mkScan (definitions st) [] (inMultiLineComment st)
        else st
    end.

(** [arr.forEach(f)], from the element at [index] on. *)
Fixpoint forEach {St : Type} (f : St -> jsstring -> nat -> St)
         (st : St) (arr : list jsstring) (index : nat) : St :=
  match arr with
  | [] => st
  | x :: arr' => forEach f (f st x index) arr' (S index)
  end.

Definition initial : scan_state := mkScan [] [] false.

Definition parseGraphQLDefinitions (docText : jsstring) : list definition :=
  definitions (forEach scan_line initial (split_lf docText) 0).

(** [/[a-zA-Z0-9_]+/g] *)
Definition wordPattern : regex := RPlus (RChar is_word).

(** The loop [while ((match = wordPattern.exec(text)) !== null)] of
    [onDefinition] and [onHover], with the value of [word] after it. *)
Fixpoint word_loop (fuel : nat) (docText : jsstring) (lastIndex offset : nat)
  : completion (option jsstring) :=
  match fuel with
  | 0 => OutOfFuel
  | S f =>
      match exec wordPattern docText lastIndex with
      | None => Normal None
      | Some m =>
          if (index m <=? offset) && (offset <=? index m + length (matched m))
          then Normal (Some (matched m))
          else word_loop f docText (end_of m) offset
      end
  end.

Definition word_at (docText : jsstring) (offset : nat)
  : completion (option jsstring) :=
  word_loop (S (length docText)) docText 0 offset.

(** [!word] *)
Definition no_word (word : option jsstring) : bool :=
  match word with
  | None => true
  | Some w => length w =? 0
  end.

(** [definitions.find(d => d.name === word)] *)
Definition find_definition (defs : list definition) (word : jsstring)
  : option definition :=
  find (fun d => str_eqb (name d) word) defs.

Definition range_of (def : definition) : LSP.Range :=
  LSP.mkRange (LSP.mkPosition (line def) 0)
              (LSP.mkPosition (line def) (length (text def))).

(** The handler of [connection.onDefinition]; [document] is
    [documents.get(params.textDocument.uri)] and [offset] is
    [document.offsetAt(params.position)]. *)
Definition onDefinition (uri : jsstring) (document : option jsstring)
           (offset : nat) : completion (option LSP.Location) :=
  match document with
  | None => Normal None
  | Some docText =>
      word <- word_at docText offset ;;
      match word with
      | None => Normal None
      | Some w =>
          if no_word word then Normal None
          else
            match find_definition (parseGraphQLDefinitions docText) w with
            | None => Normal None
            | Some def => Normal (Some (LSP.mkLocation uri (range_of def)))
            end
      end
  end.

Definition BUILTIN_SCALARS : list (jsstring * jsstring) :=
  [ (lit "String",
     lit "The String scalar type represents textual data, represented as UTF-8 character sequences.");
    (lit "Int",
     lit "The Int scalar type represents non-fractional signed whole numeric values. Int can represent values between -(2^31) and 2^31 - 1.");
    (lit "Float",
     lit "The Float scalar type represents signed double-precision fractional values as specified by IEEE 754.");
    (lit "Boolean",
     lit "The Boolean scalar type represents true or false.");
    (lit "ID",
     lit "The ID scalar type represents a unique identifier, often used to refetch an object or as the key for a cache. The ID type is serialized in the same way as a String.") ].

Definition OPEN_BRACE : code_unit := 123%N.
Definition CLOSE_BRACE : code_unit := 125%N.

(** [(s.match(/{/g) || []).length - (s.match(/}/g) || []).length] *)
Definition brace_delta (s : jsstring) : Z :=
  (Z.of_nat (match_count (RChar (eq_unit OPEN_BRACE)) s)
   - Z.of_nat (match_count (RChar (eq_unit CLOSE_BRACE)) s))%Z.

(** The loop [while (endLine < lines.length && braceCount > 0)];
    [remaining] holds the lines from [endLine] on. *)
Fixpoint brace_loop (remaining : list jsstring) (fullDef : jsstring)
         (braceCount : Z) : jsstring :=
  match remaining with
  | [] => fullDef
  | ln :: remaining' =>
      if (0 <? braceCount)%Z then
        brace_loop remaining' (fullDef ++ [LF] ++ ln)
                   (braceCount + brace_delta ln)%Z
      else fullDef
  end.

(** The loop [while (endLine < lines.length &&
    lines[endLine].trim().startsWith('|'))]. *)
Fixpoint union_loop (remaining : list jsstring) (fullDef : jsstring)
  : jsstring :=
  match remaining with
  | [] => fullDef
  | ln :: remaining' =>
      if startsWith (lit "|") (trim ln) then
        union_loop remaining' (fullDef ++ [LF] ++ ln)
      else fullDef
  end.

Definition braced_kinds : list jsstring :=
  [lit "type"; lit "interface"; lit "input"; lit "enum"].

(** Lines 181 to 204 of [onHover]: the value of [fullDef] as it is
    appended to [hoverContent].  Were [lines[def.line]] [undefined],
    [fullDef.match] would throw for a kind with braces, and no loop
    would run for the other kinds, which append ["undefined"]. *)
Definition full_definition (lines : list jsstring) (def : definition)
  : completion jsstring :=
  match nth_error lines (line def) with
  | None =>
      if includes braced_kinds (kind def) then TypeError
      else Normal (lit "undefined")
  | Some fullDef =>
      if includes braced_kinds (kind def)
      then Normal (brace_loop (skipn (line def + 1) lines) fullDef
                              (brace_delta fullDef))
      else if str_eqb (kind def) (lit "union")
      then Normal (union_loop (skipn (line def + 1) lines) fullDef)
      else Normal fullDef
  end.

(** [if (def.documentation)]: neither [null] nor the empty string. *)
Definition has_documentation (def : definition) : bool :=
  match documentation def with
  | None => false
  | Some s => negb (length s =? 0)
  end.

Definition FENCE : jsstring := lit "```".

(** [hoverContent] of [onHover]. *)
Definition hover_content (def : definition) (fullDef : jsstring) : jsstring :=
  (FENCE ++ lit "graphql" ++ [LF])
    ++ (if has_documentation def
        then match documentation def with
             | Some s => s ++ [LF]
             | None => []
             end
        else [])
    ++ fullDef ++ [LF] ++ FENCE.

Definition markdown (value : jsstring) : LSP.Hover :=
  LSP.mkHover (lit "markdown") value.

(** The text returned for a word [w] with [BUILTIN_SCALARS[w]] truthy. *)
Definition builtin_content (w : jsstring) : jsstring :=
  FENCE ++ lit "graphql" ++ [LF] ++ lit "scalar " ++ w ++ [LF] ++ FENCE
    ++ [LF; LF] ++ to_string (get BUILTIN_SCALARS w).

(** The handler of [connection.onHover]. *)
Definition onHover (document : option jsstring) (offset : nat)
  : completion (option LSP.Hover) :=
  match document with
  | None => Normal None
  | Some docText =>
      word <- word_at docText offset ;;
      match word with
      | None => Normal None
      | Some w =>
          if no_word word then Normal None
          else if truthy (get BUILTIN_SCALARS w) then
            Normal (Some (markdown (builtin_content w)))
          else
            match find_definition (parseGraphQLDefinitions docText) w with
            | None => Normal None
            | Some def =>
                fullDef <- full_definition (split_lf docText) def ;;
                Normal (Some (markdown (hover_content def fullDef)))
            end
      end
  end.

Record DocumentSymbol : Type := mkSymbol {
  symbol_name : jsstring;
  symbol_kind : property LSP.SymbolKind;
  symbol_range : LSP.Range;
  selectionRange : LSP.Range
}.

Definition symbolKindMap : list (jsstring * LSP.SymbolKind) :=
  [ (lit "type", LSP.Class);
    (lit "enum", LSP.Enum);
    (lit "union", LSP.Interface);
    (lit "interface", LSP.Interface);
    (lit "scalar", LSP.Constant);
    (lit "input", LSP.Struct) ].

(** [symbolKindMap[k] || SymbolKind.Class]; the members of [SymbolKind]
    are positive numbers, so only [undefined] is replaced. *)
Definition symbol_kind_of (k : jsstring) : property LSP.SymbolKind :=
  match get symbolKindMap k with
  | Undefined => Own LSP.Class
  | p => p
  end.

(** The handler of [connection.onDocumentSymbol]. *)
Definition onDocumentSymbol (document : option jsstring)
  : completion (list DocumentSymbol) :=
  match document with
  | None => Normal []
  | Some docText =>
      Normal (map (fun def => mkSymbol (name def) (symbol_kind_of (kind def))
                                       (range_of def) (range_of def))
                  (parseGraphQLDefinitions docText))
  end.

End Server.

Import JS Regex Obj Server.

(** ** Notions of the specification *)

Module Spec.

(** A document given by its lines. *)
Definition unlines (ls : list jsstring) : jsstring := join [LF] ls.

(** The declaration grammar as the specification writes it:
    [^(type|enum|union|interface|scalar|input)\s+([A-Za-z0-9_]+)(?=[^A-Za-z0-9_]|$)] *)
Definition grammar : regex :=
  RSeq RBol
 (RSeq (RGroup 1 keywords)
 (RSeq (RPlus (RChar is_space))
 (RSeq (RGroup 2 (RPlus (RChar is_word)))
       (RLook boundary)))).

(** The six kind keywords. *)
Definition kind_keywords : list jsstring :=
  [lit "type"; lit "enum"; lit "union"; lit "interface"; lit "scalar";
   lit "input"].

(** The five names of the built-in scalars. *)
Definition builtin_names : list jsstring :=
  [lit "String"; lit "Int"; lit "Float"; lit "Boolean"; lit "ID"].

(** The trimmed line begins with the triple quote and does not hold
    it exactly twice: it opens or closes a block comment. *)
Definition toggles (ln : jsstring) : bool :=
  startsWith TRIPLE_QUOTE (trim ln)
  && negb (match_count (RLit TRIPLE_QUOTE) (trim ln) =? 2).

(** The flag [insideBlockComment] after the lines [ls], from [inside]. *)
Definition inside_after (inside : bool) (ls : list jsstring) : bool :=
  fold_left (fun b ln => xorb b (toggles ln)) ls inside.

(** The rules of the scanner, by precedence: rules 1 to 3 make a
    comment line, rule 4 a declaration, rule 5 another line with
    content, rule 6 a blank line. *)
Inductive line_class : Type :=
| CommentLine | DeclarationLine | OtherLine | BlankLine.

Definition classify (inside : bool) (ln : jsstring) : line_class :=
  if startsWith TRIPLE_QUOTE (trim ln) || inside
     || startsWith (lit "#") (trim ln)
  then CommentLine
  else match str_match definitionPattern ln with
       | Some _ => DeclarationLine
       | None => if 0 <? length (trim ln) then OtherLine else BlankLine
       end.

(** The lines with their classes, the flag starting at [inside]. *)
Fixpoint classified (inside : bool) (ls : list jsstring)
  : list (jsstring * line_class) :=
  match ls with
  | [] => []
  | ln :: ls' =>
      (ln, classify inside ln)
        :: classified (xorb inside (toggles ln)) ls'
  end.

Definition comment_or_blank (x : jsstring * line_class) : bool :=
  match snd x with
  | CommentLine | BlankLine => true
  | DeclarationLine | OtherLine => false
  end.

Definition is_comment (x : jsstring * line_class) : bool :=
  match snd x with
  | CommentLine => true
  | _ => false
  end.

(** The immediately preceding contiguous run of comment lines: going
    back from the end of [before] over comment lines and blank lines
    only, the comment lines met, in document order. *)
Definition preceding_run (before : list (jsstring * line_class))
  : list jsstring :=
  rev (map fst (filter is_comment (take_while comment_or_blank (rev before)))).

(** The documentation a run of comment lines makes. *)
Definition documentation_of (run : list jsstring) : option jsstring :=
  match run with
  | [] => None
  | _ :: _ => Some (join [LF] run)
  end.

(** The identifier alphabet at an index of the text. *)
Definition word_char_at (docText : jsstring) (j : nat) : bool :=
  match nth_error docText j with
  | Some c => is_word c
  | None => false
  end.

(** [w] is a maximal run of identifier characters of [docText] that
    starts at [s]. *)
Definition maximal_run (docText : jsstring) (s : nat) (w : jsstring) : Prop :=
  w <> []
  /\ firstn (length w) (skipn s docText) = w
  /\ (forall j, s <= j < s + length w -> word_char_at docText j = true)
  /\ (s = 0 \/ word_char_at docText (s - 1) = false)
  /\ word_char_at docText (s + length w) = false.

(** The span [[s, s + length w]], inclusive at both ends, holds
    [offset]. *)
Definition span_contains (s : nat) (w : jsstring) (offset : nat) : Prop :=
  s <= offset /\ offset <= s + length w.

(** count of [{] minus count of [}] on the lines [ls] *)
Definition brace_balance (ls : list jsstring) : Z :=
  fold_right
    (fun ln acc =>
       (Z.of_nat (count_occ N.eq_dec ln OPEN_BRACE)
        - Z.of_nat (count_occ N.eq_dec ln CLOSE_BRACE) + acc)%Z)
    0%Z ls.

Definition continues_union (ln : jsstring) : bool :=
  startsWith (lit "|") (trim ln).

(** The declaration a declaration line makes, given its index and the
    classified lines before it. *)
Definition declaration_at (before : list (jsstring * line_class))
           (x : jsstring * line_class) : list definition :=
  match snd x, str_match definitionPattern (fst x) with
  | DeclarationLine, Some m =>
      [mkDefinition (captured m 1) (captured m 2) (length before)
                    (trim (fst x))
                    (documentation_of (preceding_run before))]
  | _, _ => []
  end.

(** The declarations of the classified lines [todo] that follow the
    classified lines [before]. *)
Fixpoint declarations_from (before todo : list (jsstring * line_class))
  : list definition :=
  match todo with
  | [] => []
  | x :: todo' =>
      declaration_at before x ++ declarations_from (before ++ [x]) todo'
  end.


(** The line [ln] begins, at column 0, with the kind keyword [k], then
    white space, then the identifier [n], which is all the identifier
    characters that follow the white space. *)
Definition declares (ln k n : jsstring) : Prop :=
  In k kind_keywords
  /\ startsWith k ln = true
  /\ take_while is_space (skipn (length k) ln) <> []
  /\ n = take_while is_word (drop_while is_space (skipn (length k) ln))
  /\ n <> [].

(** What the scanner keeps true of its state: the pending documentation
    holds a line that is not empty whenever it holds a line at all, and
    whenever the scanner is inside a block comment; and no entry has the
    empty string for documentation. *)
Definition holds_text (ls : list jsstring) : Prop :=
  exists l, In l ls /\ l <> [].

Definition documentation_invariant (st : scan_state) : Prop :=
  (inMultiLineComment st = true -> holds_text (currentDoc st))
  /\ (currentDoc st = [] \/ holds_text (currentDoc st))
  /\ (forall d, In d (definitions st) -> documentation d <> Some []).

End Spec.

Import Spec.

(** ** Documents used as examples *)

Module Examples.

(** [type Foo] on line 2 and [enum Foo] on line 10. *)
Definition two_Foo : jsstring :=
  unlines [ lit "# schema"; lit ""; lit "type Foo {"; lit "  a: Int"; lit "}";
            lit ""; lit ""; lit ""; lit ""; lit ""; lit "enum Foo { A }" ].


(** A block comment that holds a blank line, a blank line and a
    declaration; two [#] lines with a blank line between them and a
    declaration; then a comment, content, a blank line and a declaration
    with no documentation. *)
Definition documented : jsstring :=
  unlines [ TRIPLE_QUOTE; lit "A user"; lit ""; TRIPLE_QUOTE; lit "";
            lit "type User {"; lit "  id: ID!"; lit "}"; lit "";
            lit "# the roles"; lit ""; lit "# of a user"; lit "enum Role { A }";
            lit "# lost"; lit "schema { query: Q }"; lit "";
            lit "scalar Date" ].

(** A one-line block comment before a declaration, then a block
    comment that is never closed. *)
Definition unterminated : jsstring :=
  unlines [ TRIPLE_QUOTE ++ lit " one line " ++ TRIPLE_QUOTE; lit "type A {";
            lit "}"; TRIPLE_QUOTE ++ lit " open"; lit "type B {"; lit "}";
            lit "scalar C" ].


(** The three lines of [type User], then another declaration. *)
Definition user_type : jsstring :=
  unlines [ lit "type User {"; lit "  id: ID!"; lit "}"; lit "";
            lit "scalar Date" ].

(** [type X {] is never closed. *)
Definition open_type : jsstring :=
  unlines [ lit "type X {"; lit "  a: Int"; lit ""; lit "scalar Date" ].

(** A union over three lines, then a line that does not continue it. *)
Definition union_lines : jsstring :=
  unlines [ lit "union U ="; lit "  | A"; lit "  | B {"; lit "scalar Date";
            lit "  | C" ].



(** A user declaration named as a member of [Object.prototype]. *)
Definition scalar_constructor : jsstring := lit "scalar constructor".

Definition some_uri : jsstring := lit "file:///schema.graphql".

(** The scanner state after the first two lines of [documented]: inside
    the block comment. *)
Definition inside_comment : scan_state :=
  forEach scan_line initial [TRIPLE_QUOTE; lit "A user"] 0.

(** The declaration of [User] in [documented]. *)
Definition User_in_documented : definition :=
  mkDefinition (lit "type") (lit "User") 5 (lit "type User {")
    (Some (unlines [TRIPLE_QUOTE; lit "A user"; lit ""; TRIPLE_QUOTE])).

(** The declaration of [User] in [user_type]. *)
Definition User_in_user_type : definition :=
  mkDefinition (lit "type") (lit "User") 0 (lit "type User {") None.

(** The declarations of [U] and [Date] in [union_lines]. *)
Definition U_in_union_lines : definition :=
  mkDefinition (lit "union") (lit "U") 0 (lit "union U =") None.

Definition Date_in_union_lines : definition :=
  mkDefinition (lit "scalar") (lit "Date") 3 (lit "scalar Date") None.

End Examples.

Import Examples.

(** * Properties *)

(** ** Strings *)

Lemma eq_unit_true (a b : code_unit) : eq_unit a b = true <-> a = b.
Proof. unfold eq_unit. apply N.eqb_eq. Qed.

Lemma str_eqb_eq (a b : jsstring) : str_eqb a b = true <-> a = b.
Proof.
  revert b. induction a as [|x a IH]; intros [|y b]; simpl;
    try (split; [discriminate | intros H; discriminate H]); [tauto|].
  rewrite andb_true_iff, eq_unit_true, IH.
  split; [intros [-> ->]; reflexivity | intros H; inversion H; auto].
Qed.

Lemma str_eqb_refl (a : jsstring) : str_eqb a a = true.
Proof. apply str_eqb_eq. reflexivity. Qed.

Lemma str_eqb_neq (a b : jsstring) : str_eqb a b = false <-> a <> b.
Proof.
  rewrite <- str_eqb_eq. destruct (str_eqb a b); split; congruence.
Qed.

Ltac unfold_classes H :=
  unfold is_space, is_word in H;
  repeat rewrite ?orb_true_iff, ?andb_true_iff, ?N.leb_le, ?N.eqb_eq in H.

Lemma is_space_not_word (c : code_unit) : is_space c = true -> is_word c = false.
Proof.
  intros Hs. apply not_true_is_false. intros Hw.
  unfold_classes Hs. unfold_classes Hw. lia.
Qed.

Lemma take_drop_while {A : Type} (p : A -> bool) (s : list A) :
  take_while p s ++ drop_while p s = s.
Proof.
  induction s as [|c t IH]; simpl; [reflexivity|].
  destruct (p c); simpl; [rewrite IH|]; reflexivity.
Qed.

Lemma skipn_take_while {A : Type} (p : A -> bool) (s : list A) :
  skipn (length (take_while p s)) s = drop_while p s.
Proof.
  induction s as [|c t IH]; simpl; [reflexivity|].
  destruct (p c); simpl; [apply IH | reflexivity].
Qed.

Lemma firstn_take_while {A : Type} (p : A -> bool) (s : list A) :
  firstn (length (take_while p s)) s = take_while p s.
Proof.
  induction s as [|c t IH]; simpl; [reflexivity|].
  destruct (p c); simpl; [rewrite IH|]; reflexivity.
Qed.

Lemma take_while_all {A : Type} (p : A -> bool) (s : list A) :
  forallb p (take_while p s) = true.
Proof.
  induction s as [|c t IH]; simpl; [reflexivity|].
  destruct (p c) eqn:E; simpl; [rewrite E; apply IH | reflexivity].
Qed.

Lemma drop_while_head {A : Type} (p : A -> bool) (s : list A) (c : A) (t : list A) :
  drop_while p s = c :: t -> p c = false.
Proof.
  induction s as [|x s IH]; simpl; [discriminate|].
  destruct (p x) eqn:E; [exact IH|]. intros H; inversion H; subst; exact E.
Qed.

Lemma split_lf_nonempty (s : jsstring) : split_lf s <> [].
Proof.
  destruct s as [|c t]; simpl; [discriminate|].
  destruct (eq_unit c LF); [discriminate|].
  destruct (split_lf t); discriminate.
Qed.

(** ** The matcher *)

Lemma star_class (p : code_unit -> bool) (fuel i : nat) (s : jsstring)
      (cs : list (nat * jsstring)) :
  length s <= fuel ->
  star (rmatch (RChar p)) fuel (MState i s cs) = greedy p i s cs.
Proof.
  revert i s. induction fuel as [|f IH]; intros i s Hf.
  - destruct s; [reflexivity | simpl in Hf; lia].
  - destruct s as [|c t]; simpl; [reflexivity|].
    destruct (p c); simpl; [|reflexivity].
    assert (Hlt : (length t <? S (length t)) = true) by (apply Nat.ltb_lt; lia).
    unfold advance; simpl. rewrite Hlt, app_nil_r, IH by (simpl in Hf; lia).
    reflexivity.
Qed.

Lemma rmatch_plus_class (p : code_unit -> bool) (i : nat) (s : jsstring)
      (cs : list (nat * jsstring)) :
  rmatch (RPlus (RChar p)) (MState i s cs) =
  match s with
  | c :: t => if p c then greedy p (S i) t cs else []
  | [] => []
  end.
Proof.
  simpl. destruct s as [|c t]; [reflexivity|].
  destruct (p c); [|reflexivity].
  simpl. unfold advance; simpl. rewrite app_nil_r. apply star_class. lia.
Qed.

Lemma greedy_first (p : code_unit -> bool) (i : nat) (s : jsstring)
      (cs : list (nat * jsstring)) :
  exists tl, greedy p i s cs =
             MState (i + length (take_while p s)) (drop_while p s) cs :: tl.
Proof.
  revert i. induction s as [|c t IH]; intros i; simpl.
  - exists []. rewrite Nat.add_0_r. reflexivity.
  - destruct (p c).
    + destruct (IH (S i)) as [tl ->]. exists (tl ++ [MState i (c :: t) cs]).
      simpl. rewrite Nat.add_succ_r. reflexivity.
    + exists []. rewrite Nat.add_0_r. reflexivity.
Qed.

Lemma greedy_captures (p : code_unit -> bool) (i : nat) (s : jsstring)
      (cs : list (nat * jsstring)) (y : mstate) :
  In y (greedy p i s cs) -> captures y = cs.
Proof.
  revert i. induction s as [|c t IH]; intros i; simpl.
  - intros [<-|[]]. reflexivity.
  - destruct (p c).
    + rewrite in_app_iff. intros [H|[<-|[]]]; [eapply IH; eauto | reflexivity].
    + intros [<-|[]]. reflexivity.
Qed.

(** What follows a greedy class repetition is tried after the longest
    run only, when it fails wherever a character of the class is next. *)
Lemma flat_map_greedy {B : Type} (p : code_unit -> bool) (k : mstate -> list B)
      (i : nat) (s : jsstring) (cs : list (nat * jsstring)) :
  (forall j c t, p c = true -> k (MState j (c :: t) cs) = []) ->
  flat_map k (greedy p i s cs) =
  k (MState (i + length (take_while p s)) (drop_while p s) cs).
Proof.
  intros Hk. revert i. induction s as [|c t IH]; intros i; simpl.
  - rewrite app_nil_r, Nat.add_0_r. reflexivity.
  - destruct (p c) eqn:E; simpl.
    + rewrite flat_map_app, IH. simpl. rewrite (Hk i c t E), !app_nil_r.
      rewrite Nat.add_succ_r. reflexivity.
    + rewrite app_nil_r, Nat.add_0_r. reflexivity.
Qed.

(** ** The matcher moves forward, and its fuel is enough *)

Lemma advances_refl (x : mstate) : advances x x.
Proof. exists 0. cbn. rewrite Nat.add_0_r. split; [lia | auto]. Qed.

Lemma advances_trans (x y z : mstate) :
  advances x y -> advances y z -> advances x z.
Proof.
  intros (n1 & H1 & R1 & E1) (n2 & H2 & R2 & E2). exists (n1 + n2).
  rewrite R1, length_skipn in H2. rewrite R1, skipn_skipn in R2.
  split; [lia|]. split; [rewrite R2; f_equal; lia | lia].
Qed.

Lemma advances_length (x y : mstate) :
  advances x y -> length (rest y) <= length (rest x).
Proof. intros (n & H & R & _). rewrite R, length_skipn. lia. Qed.

Lemma star_advances (m : mstate -> list mstate) :
  (forall x y, In y (m x) -> advances x y) ->
  forall fuel x y, In y (star m fuel x) -> advances x y.
Proof.
  intros Hm. induction fuel as [|f IH]; intros x y; cbn [star].
  - intros [<-|[]]. apply advances_refl.
  - rewrite in_app_iff. intros [H|[<-|[]]]; [|apply advances_refl].
    apply in_flat_map in H. destruct H as (z & Hz & H).
    destruct (length (rest z) <? length (rest x)); [|destruct H].
    eapply advances_trans; eauto.
Qed.

Lemma rmatch_advances (r : regex) :
  forall x y, In y (rmatch r x) -> advances x y.
Proof.
  induction r as [|p| | |a IHa b IHb|a IHa b IHb|a IHa|i a IHa|a IHa];
    intros x y; cbn [rmatch].
  - intros [<-|[]]. apply advances_refl.
  - destruct (rest x) as [|c t] eqn:E; [intros []|].
    destruct (p c); [|intros []]. intros [<-|[]].
    exists 1. rewrite E. cbn. split; [lia|]. split; [reflexivity | lia].
  - destruct (endIndex x =? 0); [|intros []]. intros [<-|[]].
    apply advances_refl.
  - destruct (rest x); [|intros []]. intros [<-|[]]. apply advances_refl.
  - intros H. apply in_flat_map in H. destruct H as (z & Hz & H).
    eapply advances_trans; eauto.
  - rewrite in_app_iff. intros [H|H]; auto.
  - intros H. apply in_flat_map in H. destruct H as (z & Hz & H).
    eapply advances_trans; [eauto|]. eapply star_advances; eauto.
  - intros H. apply in_map_iff in H. destruct H as (z & <- & Hz).
    destruct (IHa _ _ Hz) as (n & Hn). exists n. exact Hn.
  - destruct (rmatch a x); [intros []|]. intros [<-|[]].
    exists 0. cbn. rewrite Nat.add_0_r. split; [lia | auto].
Qed.

Lemma flat_map_ext_In {A B : Type} (f g : A -> list B) (l : list A) :
  (forall x, In x l -> f x = g x) -> flat_map f l = flat_map g l.
Proof.
  induction l as [|a l IH]; intros H; cbn; [reflexivity|].
  rewrite H by (left; reflexivity). rewrite IH; [reflexivity|].
  intros x Hx. apply H. right. exact Hx.
Qed.

(** The fuel [star] is given, the length of the input left, is enough:
    more fuel gives the same matches. *)
Lemma star_fuel_enough (m : mstate -> list mstate) :
  (forall x y, In y (m x) -> advances x y) ->
  forall fuel x, length (rest x) <= fuel ->
                 star m (S fuel) x = star m fuel x.
Proof.
  intros Hm. induction fuel as [|f IH]; intros x Hx.
  - cbn [star]. f_equal. rewrite (flat_map_ext_In _ (fun _ => [])).
    + induction (m x); auto.
    + intros y _. destruct (length (rest y) <? length (rest x)) eqn:E;
        [apply Nat.ltb_lt in E; lia | reflexivity].
  - change (star m (S (S f)) x)
      with (flat_map (fun y => if length (rest y) <? length (rest x)
                               then star m (S f) y else []) (m x) ++ [x]).
    change (star m (S f) x)
      with (flat_map (fun y => if length (rest y) <? length (rest x)
                               then star m f y else []) (m x) ++ [x]).
    f_equal. apply flat_map_ext_In. intros y Hy.
    destruct (length (rest y) <? length (rest x)) eqn:E; [|reflexivity].
    apply Nat.ltb_lt in E. apply IH. lia.
Qed.

Lemma exec_at_bounds (r : regex) (suffix : jsstring) :
  forall i m, exec_at r i suffix = Some m ->
              i <= index m /\ end_of m <= i + length suffix.
Proof.
  induction suffix as [|c t IH]; intros i m; cbn [exec_at].
  - destruct (rmatch r (MState i [] [])) as [|y tl] eqn:E; [discriminate|].
    intros H; inversion H; subst m. unfold end_of. cbn [index matched].
    rewrite firstn_nil. cbn. lia.
  - destruct (rmatch r (MState i (c :: t) [])) as [|y tl] eqn:E.
    + intros H. apply IH in H. cbn [length]. lia.
    + assert (Hadv : advances (MState i (c :: t) []) y)
        by (apply (rmatch_advances r); rewrite E; left; reflexivity).
      destruct Hadv as (n & Hn & _ & He). cbn [rest endIndex] in Hn, He.
      intros H; inversion H; subst m. unfold end_of. cbn [index matched].
      rewrite length_firstn. lia.
Qed.

(** The fuel of [match_count] is enough: more fuel gives the same
    matches. *)
Lemma match_all_fuel_enough (r : regex) (input : jsstring) :
  forall fuel L fuel',
    length input + 1 - L < fuel -> fuel <= fuel' ->
    match_all_from fuel' r input L = match_all_from fuel r input L.
Proof.
  induction fuel as [|f IH]; intros L fuel' Hf Hle; [lia|].
  destruct fuel' as [|f']; [lia|]. cbn [match_all_from].
  destruct (exec r input L) as [m|] eqn:E; [|reflexivity].
  unfold exec in E. destruct (length input <? L) eqn:EL; [discriminate|].
  apply Nat.ltb_ge in EL. apply exec_at_bounds in E.
  rewrite length_skipn in E. f_equal.
  apply IH; [|lia].
  unfold end_of in *. destruct (length (matched m) =? 0) eqn:E0.
  - apply Nat.eqb_eq in E0. lia.
  - apply Nat.eqb_neq in E0. lia.
Qed.

(** ** Counting the matches of a one-character pattern *)

Lemma exec_at_char (q : code_unit -> bool) (i : nat) (suffix : jsstring) :
  exec_at (RChar q) i suffix =
  match drop_while (fun c => negb (q c)) suffix with
  | [] => None
  | c :: _ =>
      Some (MatchResult
              (i + length (take_while (fun c => negb (q c)) suffix)) [c] [])
  end.
Proof.
  revert i. induction suffix as [|c t IH]; intros i; [reflexivity|].
  cbn [exec_at rmatch rest drop_while take_while].
  destruct (q c); cbn [negb advance endIndex captures length].
  - replace (S i - i) with 1 by lia. rewrite Nat.add_0_r. reflexivity.
  - rewrite IH. destruct (drop_while _ t); [reflexivity|].
    rewrite Nat.add_succ_r. reflexivity.
Qed.

Lemma filter_take_while_negb {A : Type} (q : A -> bool) (s : list A) :
  filter q (take_while (fun c => negb (q c)) s) = [].
Proof.
  induction s as [|c t IH]; simpl; [reflexivity|].
  destruct (q c) eqn:E; simpl; [reflexivity|]. rewrite E. exact IH.
Qed.

Lemma match_all_char (q : code_unit -> bool) (input : jsstring) (fuel L : nat) :
  L <= length input -> length input - L < fuel ->
  length (match_all_from fuel (RChar q) input L)
  = length (filter q (skipn L input)).
Proof.
  revert L. induction fuel as [|f IH]; intros L HL Hf; [lia|].
  simpl. unfold exec.
  destruct (length input <? L) eqn:E; [apply Nat.ltb_lt in E; lia|].
  rewrite exec_at_char.
  set (nq := fun c => negb (q c)).
  rewrite <- (take_drop_while nq (skipn L input)) at 2.
  rewrite filter_app, filter_take_while_negb. simpl.
  pose proof (skipn_take_while nq (skipn L input)) as Hsk.
  rewrite skipn_skipn in Hsk.
  pose proof (take_drop_while nq (skipn L input)) as Htd.
  assert (Hlen : length (take_while nq (skipn L input))
                 + length (drop_while nq (skipn L input)) = length input - L).
  { rewrite <- length_app, Htd, length_skipn. reflexivity. }
  destruct (drop_while nq (skipn L input)) as [|c t] eqn:Ed; [reflexivity|].
  pose proof (drop_while_head _ _ _ _ Ed) as Hc. unfold nq in Hc.
  apply negb_false_iff in Hc. cbn [filter app]. rewrite Hc.
  simpl in Hlen. unfold end_of; simpl.
  rewrite IH by lia. f_equal. f_equal.
  replace (L + length (take_while nq (skipn L input)) + 1)
    with (1 + (length (take_while nq (skipn L input)) + L)) by lia.
  rewrite <- skipn_skipn, Hsk. reflexivity.
Qed.

Lemma filter_eq_unit_count (c : code_unit) (s : jsstring) :
  length (filter (eq_unit c) s) = count_occ N.eq_dec s c.
Proof.
  induction s as [|x s IH]; simpl; [reflexivity|].
  destruct (N.eq_dec x c) as [->|Hne].
  - unfold eq_unit at 1. rewrite N.eqb_refl. simpl. rewrite IH. reflexivity.
  - destruct (eq_unit c x) eqn:E; [apply eq_unit_true in E; congruence | exact IH].
Qed.

(** [(s.match(/c/g) || []).length] counts the occurrences of [c]. *)
Lemma match_count_char (c : code_unit) (s : jsstring) :
  match_count (RChar (eq_unit c)) s = count_occ N.eq_dec s c.
Proof.
  unfold match_count. rewrite match_all_char by (simpl; lia).
  simpl. apply filter_eq_unit_count.
Qed.

Lemma brace_delta_count (s : jsstring) :
  brace_delta s =
  (Z.of_nat (count_occ N.eq_dec s OPEN_BRACE)
   - Z.of_nat (count_occ N.eq_dec s CLOSE_BRACE))%Z.
Proof. unfold brace_delta. rewrite !match_count_char. reflexivity. Qed.

(** ** The word pattern *)

Lemma exec_at_word (i : nat) (suffix : jsstring) :
  exec_at wordPattern i suffix =
  match take_while is_word (drop_while not_word suffix) with
  | [] => None
  | w => Some (MatchResult (i + length (take_while not_word suffix)) w [])
  end.
Proof.
  unfold wordPattern.
  revert i. induction suffix as [|c t IH]; intros i; [reflexivity|].
  cbn [exec_at]. rewrite rmatch_plus_class. cbn [take_while drop_while].
  assert (Hn : not_word c = negb (is_word c)) by reflexivity. rewrite Hn.
  destruct (is_word c) eqn:E; cbn [negb].
  - destruct (greedy_first is_word (S i) t []) as [tl ->].
    cbn [take_while]. rewrite E. cbn [endIndex length].
    rewrite Nat.add_0_r.
    replace (S i + length (take_while is_word t) - i)
      with (S (length (take_while is_word t))) by lia.
    cbn [firstn]. rewrite firstn_take_while. reflexivity.
  - rewrite IH.
    destruct (take_while is_word (drop_while not_word t)); [reflexivity|].
    cbn [length]. rewrite Nat.add_succ_r. reflexivity.
Qed.

Lemma word_char_at_skipn (s : jsstring) (n j : nat) :
  word_char_at (skipn n s) j = word_char_at s (n + j).
Proof. unfold word_char_at. rewrite nth_error_skipn. reflexivity. Qed.

Lemma take_while_word_inside (s : jsstring) (j : nat) :
  j < length (take_while is_word s) -> word_char_at s j = true.
Proof.
  unfold word_char_at. revert j. induction s as [|c t IH]; intros j; simpl; [lia|].
  destruct (is_word c) eqn:E; simpl; [|lia].
  destruct j; simpl; [intros _; exact E | intros H; apply IH; lia].
Qed.

Lemma take_while_word_end (s : jsstring) :
  word_char_at s (length (take_while is_word s)) = false.
Proof.
  unfold word_char_at. induction s as [|c t IH]; simpl; [reflexivity|].
  destruct (is_word c) eqn:E; simpl; [exact IH | exact E].
Qed.

Lemma take_while_gap_inside (s : jsstring) (j : nat) :
  j < length (take_while not_word s) -> word_char_at s j = false.
Proof.
  unfold word_char_at, not_word. revert j.
  induction s as [|c t IH]; intros j; simpl; [lia|].
  destruct (is_word c) eqn:E; simpl; [lia|].
  destruct j; simpl; [intros _; exact E | intros H; apply IH; lia].
Qed.

Lemma no_word_after_gap (s : jsstring) (j : nat) :
  take_while is_word (drop_while not_word s) = [] -> word_char_at s j = false.
Proof.
  unfold word_char_at, not_word. revert j.
  induction s as [|c t IH]; intros j; simpl.
  - intros _. destruct j; reflexivity.
  - destruct (is_word c) eqn:E; simpl; [rewrite E; discriminate|].
    intros H. destruct j; simpl; [exact E | apply IH; exact H].
Qed.

Lemma exec_word_none (docText : jsstring) (L : nat) :
  L <= length docText ->
  exec wordPattern docText L = None ->
  forall j, L <= j -> word_char_at docText j = false.
Proof.
  intros HL. unfold exec.
  destruct (length docText <? L) eqn:E; [apply Nat.ltb_lt in E; lia|].
  rewrite exec_at_word.
  destruct (take_while is_word (drop_while not_word (skipn L docText))) eqn:Ew;
    [|discriminate].
  intros _ j Hj.
  pose proof (no_word_after_gap _ (j - L) Ew) as H.
  rewrite word_char_at_skipn in H. replace (L + (j - L)) with j in H by lia.
  exact H.
Qed.

Lemma exec_word_some (docText : jsstring) (L : nat) (m : match_result) :
  L <= length docText ->
  exec wordPattern docText L = Some m ->
  L <= index m
  /\ (forall j, L <= j < index m -> word_char_at docText j = false)
  /\ matched m <> []
  /\ firstn (length (matched m)) (skipn (index m) docText) = matched m
  /\ (forall j, index m <= j < index m + length (matched m) ->
                word_char_at docText j = true)
  /\ word_char_at docText (index m + length (matched m)) = false
  /\ index m + length (matched m) <= length docText.
Proof.
  intros HL. unfold exec.
  destruct (length docText <? L) eqn:E; [apply Nat.ltb_lt in E; lia|].
  rewrite exec_at_word.
  set (s := skipn L docText).
  pose proof (skipn_take_while not_word s) as Hsk.
  unfold s in Hsk at 2. rewrite skipn_skipn in Hsk.
  destruct (take_while is_word (drop_while not_word s)) as [|c w] eqn:Ew;
    [discriminate|].
  intros H; inversion H; subst m; clear H. cbn [index matched].
  rewrite <- Ew.
  replace (L + length (take_while not_word s))
    with (length (take_while not_word s) + L) by lia.
  rewrite Hsk.
  split; [lia|]. split.
  { intros j Hj.
    pose proof (take_while_gap_inside s (j - L)) as Hg.
    unfold s in Hg at 2. rewrite word_char_at_skipn in Hg.
    replace (L + (j - L)) with j in Hg by lia. apply Hg. lia. }
  split; [rewrite Ew; discriminate|].
  split; [apply firstn_take_while|].
  split.
  { intros j Hj.
    pose proof (take_while_word_inside (drop_while not_word s)
                  (j - (length (take_while not_word s) + L))) as Hg.
    rewrite <- Hsk in Hg at 2. rewrite word_char_at_skipn in Hg.
    replace (length (take_while not_word s) + L
             + (j - (length (take_while not_word s) + L))) with j in Hg by lia.
    apply Hg. lia. }
  split.
  { pose proof (take_while_word_end (drop_while not_word s)) as Hg.
    rewrite <- Hsk in Hg at 1. rewrite word_char_at_skipn in Hg. exact Hg. }
  pose proof (take_drop_while is_word (drop_while not_word s)) as H1.
  rewrite <- Hsk in H1 at 3.
  apply (f_equal (@length _)) in H1. rewrite length_app, length_skipn in H1.
  pose proof (take_drop_while not_word s) as H2.
  apply (f_equal (@length _)) in H2. unfold s in H2 at 3.
  rewrite length_app, length_skipn in H2. lia.
Qed.

Lemma nonempty_length {A : Type} (l : list A) : l <> [] -> 1 <= length l.
Proof. destruct l; [congruence | simpl; lia]. Qed.

(** A maximal run that starts between [L] and the end of the match that
    [exec] finds from [L] is that match. *)
Lemma run_before_end (docText : jsstring) (L : nat) (m : match_result)
      (s' : nat) (w' : jsstring) :
  L <= length docText ->
  exec wordPattern docText L = Some m ->
  maximal_run docText s' w' ->
  L <= s' < index m + length (matched m) ->
  s' = index m /\ length w' = length (matched m).
Proof.
  intros HL Ex (Hne' & _ & Hin' & Hleft' & Hend') Hs'.
  destruct (exec_word_some _ _ _ HL Ex) as (H1 & Hgap & Hne & _ & Hin & Hend & _).
  apply nonempty_length in Hne, Hne'.
  assert (Hi : index m <= s').
  { destruct (Nat.le_gt_cases (index m) s') as [|Hlt]; [assumption|].
    pose proof (Hin' s' ltac:(lia)) as Hx. rewrite Hgap in Hx by lia.
    discriminate. }
  assert (Hs : s' = index m).
  { destruct (Nat.eq_dec s' (index m)) as [|Hneq]; [assumption|].
    destruct Hleft' as [->|Hl]; [lia|].
    rewrite Hin in Hl by lia. discriminate. }
  split; [exact Hs|]. subst s'.
  destruct (Nat.lt_trichotomy (length w') (length (matched m))) as [Hlt|[Heq|Hgt]];
    [|exact Heq|].
  - rewrite Hin in Hend' by lia. discriminate.
  - rewrite Hin' in Hend by lia. discriminate.
Qed.

Lemma word_loop_spec (docText : jsstring) (offset : nat) :
  forall fuel L,
    L <= length docText -> length docText - L < fuel ->
    (L = 0 \/ word_char_at docText L = false) ->
    exists r, word_loop fuel docText L offset = Normal r /\
      match r with
      | Some w =>
          exists s, L <= s /\ maximal_run docText s w /\ span_contains s w offset
            /\ (forall s' w', L <= s' -> maximal_run docText s' w' ->
                              span_contains s' w' offset -> s <= s')
      | None =>
          forall s' w', L <= s' -> maximal_run docText s' w' ->
                        ~ span_contains s' w' offset
      end.
Proof.
  induction fuel as [|f IH]; intros L HL Hf Inv; [lia|].
  cbn [word_loop]. destruct (exec wordPattern docText L) as [m|] eqn:Ex.
  - destruct (exec_word_some _ _ _ HL Ex) as (H1 & Hgap & Hne & Hsub & Hin & Hend & Hlen).
    pose proof (nonempty_length _ Hne) as Hn.
    destruct ((index m <=? offset) && (offset <=? index m + length (matched m)))
      eqn:Et.
    + apply andb_true_iff in Et. rewrite !Nat.leb_le in Et.
      exists (Some (matched m)). split; [reflexivity|].
      exists (index m). split; [lia|]. split.
      { repeat split; try assumption.
        destruct (Nat.eq_dec (index m) 0) as [|Hnz]; [left; assumption | right].
        destruct (Nat.eq_dec (index m) L) as [HeqL|HneL].
        - destruct Inv as [->|Hf0]; [lia|].
          rewrite <- HeqL, Hin in Hf0 by lia. discriminate.
        - apply Hgap. lia. }
      split; [exact Et|].
      intros s' w' Hs' Hrun _.
      destruct (Nat.le_gt_cases (index m) s') as [|Hlt]; [assumption|].
      destruct Hrun as (Hne' & _ & Hin' & _). apply nonempty_length in Hne'.
      pose proof (Hin' s' ltac:(lia)) as Hx. rewrite Hgap in Hx by lia.
      discriminate.
    + apply andb_false_iff in Et. rewrite !Nat.leb_gt in Et.
      destruct (IH (end_of m)) as [r [Hr Hspec]]; unfold end_of;
        [lia | lia | right; exact Hend |].
      exists r. split; [exact Hr|].
      assert (Hearly : forall s' w', L <= s' -> maximal_run docText s' w' ->
                span_contains s' w' offset ->
                index m + length (matched m) <= s').
      { intros s' w' Hs' Hrun [Hc1 Hc2].
        destruct (Nat.le_gt_cases (index m + length (matched m)) s') as [|Hlt];
          [assumption|].
        destruct (run_before_end _ _ _ _ _ HL Ex Hrun) as [-> Hw]; lia. }
      destruct r as [w|].
      * destruct Hspec as (s & Hs & Hrun & Hc & Hmin).
        exists s. split; [unfold end_of in Hs; lia|]. split; [exact Hrun|].
        split; [exact Hc|].
        intros s' w' Hs' Hrun' Hc'. apply (Hmin s' w'); auto.
        unfold end_of. eapply Hearly; eauto.
      * intros s' w' Hs' Hrun' Hc'.
        apply (Hspec s' w'); auto. unfold end_of. eapply Hearly; eauto.
  - exists None. split; [reflexivity|].
    intros s' w' Hs' (Hne' & _ & Hin' & _) _. apply nonempty_length in Hne'.
    pose proof (Hin' s' ltac:(lia)) as Hx.
    rewrite (exec_word_none _ _ HL Ex) in Hx by lia. discriminate.
Qed.

Lemma word_loop_more_fuel (docText : jsstring) (offset : nat)
      (r : option jsstring) :
  forall f L, word_loop f docText L offset = Normal r ->
  forall f', f <= f' -> word_loop f' docText L offset = Normal r.
Proof.
  induction f as [|f IH]; intros L H f' Hf; [discriminate|].
  destruct f' as [|f']; [lia|].
  cbn [word_loop] in *. destruct (exec wordPattern docText L) as [m|]; [|exact H].
  destruct ((index m <=? offset) && (offset <=? index m + length (matched m)));
    [exact H|].
  apply IH; [exact H | lia].
Qed.

Lemma word_at_spec (docText : jsstring) (offset : nat) :
  exists r, word_at docText offset = Normal r /\
    match r with
    | Some w =>
        exists s, maximal_run docText s w /\ span_contains s w offset
          /\ (forall s' w', maximal_run docText s' w' ->
                            span_contains s' w' offset -> s <= s')
    | None =>
        forall s' w', maximal_run docText s' w' -> ~ span_contains s' w' offset
    end.
Proof.
  destruct (word_loop_spec docText offset (S (length docText)) 0)
    as [r [Hr Hspec]]; [lia | lia | left; reflexivity |].
  exists r. split; [exact Hr|]. destruct r as [w|].
  - destruct Hspec as (s & _ & Hrun & Hc & Hmin). exists s.
    split; [exact Hrun|]. split; [exact Hc|].
    intros s' w' Hrun' Hc'. apply (Hmin s' w'); auto. lia.
  - intros s' w' Hrun'. apply Hspec; auto. lia.
Qed.

Lemma word_at_nonempty (docText : jsstring) (offset : nat) (w : jsstring) :
  word_at docText offset = Normal (Some w) -> no_word (Some w) = false.
Proof.
  intros H. destruct (word_at_spec docText offset) as [r [Hr Hspec]].
  rewrite H in Hr. inversion Hr; subst r.
  destruct Hspec as (s & (Hne & _) & _).
  destruct w; [congruence | reflexivity].
Qed.

(** C6.  The word lookup always ends with a result; a word it returns is a
    maximal run of identifier characters whose span, inclusive at both
    ends, holds the offset, and no run that starts earlier does; it
    returns none exactly when no maximal run holds the offset.  On the
    text [User] the offsets 0 to 4 all give [User]; offset 5 of [User {]
    gives none. *)
Theorem word_locator_first_run :
  (forall docText offset,
      exists r, word_at docText offset = Normal r /\
        match r with
        | Some w =>
            exists s, maximal_run docText s w /\ span_contains s w offset
              /\ (forall s' w', maximal_run docText s' w' ->
                                span_contains s' w' offset -> s <= s')
        | None =>
            forall s' w', maximal_run docText s' w' ->
                          ~ span_contains s' w' offset
        end)
  /\ Forall (fun offset => word_at (lit "User") offset = Normal (Some (lit "User")))
            [0; 1; 2; 3; 4]
  /\ word_at (lit "User") 5 = Normal None
  /\ word_at (lit "User {") 5 = Normal None.
Proof.
  split; [exact word_at_spec|].
  split; [repeat constructor | split; reflexivity].
Qed.

(** ** The scanner, line by line *)

Ltac scan_cases st ln :=
  unfold scan_line, classify, toggles;
  destruct (startsWith TRIPLE_QUOTE (trim ln)) eqn:Etq;
  [ destruct (match_count (RLit TRIPLE_QUOTE) (trim ln) =? 2) eqn:Ecount
  | destruct (inMultiLineComment st) eqn:Einside;
    [ | destruct (startsWith (lit "#") (trim ln)) eqn:Ehash;
        [ | destruct (str_match definitionPattern ln) as [m|] eqn:Ematch;
            [ | destruct (0 <? length (trim ln)) eqn:Elen ] ] ] ];
  cbn [definitions currentDoc inMultiLineComment orb andb negb xorb].

Lemma documentation_of_pending (pending : list jsstring) :
  (if 0 <? length pending then Some (join [LF] pending) else None)
  = documentation_of pending.
Proof. destruct pending; reflexivity. Qed.

Lemma scan_line_flag (st : scan_state) (ln : jsstring) (idx : nat) :
  inMultiLineComment (scan_line st ln idx)
  = xorb (inMultiLineComment st) (toggles ln).
Proof.
  scan_cases st ln; rewrite ?Einside; try reflexivity;
    try (destruct (inMultiLineComment st); reflexivity).
Qed.

Lemma scan_line_doc (st : scan_state) (ln : jsstring) (idx : nat) :
  currentDoc (scan_line st ln idx)
  = match classify (inMultiLineComment st) ln with
    | CommentLine => currentDoc st ++ [ln]
    | BlankLine => currentDoc st
    | DeclarationLine | OtherLine => []
    end.
Proof. scan_cases st ln; rewrite ?Einside; reflexivity. Qed.

Lemma scan_line_defs (st : scan_state) (ln : jsstring)
      (before : list (jsstring * line_class)) :
  currentDoc st = preceding_run before ->
  definitions (scan_line st ln (length before))
  = definitions st
      ++ declaration_at before (ln, classify (inMultiLineComment st) ln).
Proof.
  intros Hdoc. unfold declaration_at. cbn [fst snd].
  scan_cases st ln; rewrite ?Einside, ?app_nil_r; try reflexivity.
  rewrite documentation_of_pending, Hdoc. reflexivity.
Qed.

Lemma preceding_run_snoc (before : list (jsstring * line_class))
      (x : jsstring * line_class) :
  preceding_run (before ++ [x])
  = match snd x with
    | CommentLine => preceding_run before ++ [fst x]
    | BlankLine => preceding_run before
    | DeclarationLine | OtherLine => []
    end.
Proof.
  unfold preceding_run. rewrite rev_app_distr. destruct x as [ln c].
  destruct c; reflexivity.
Qed.

Lemma classified_fst (inside : bool) (ls : list jsstring) :
  map fst (classified inside ls) = ls.
Proof.
  revert inside. induction ls as [|ln ls IH]; intros inside; simpl;
    [|rewrite IH]; reflexivity.
Qed.

Lemma classified_length (inside : bool) (ls : list jsstring) :
  length (classified inside ls) = length ls.
Proof. rewrite <- (classified_fst inside ls) at 2. rewrite length_map. reflexivity. Qed.

Lemma classified_app (inside : bool) (l1 l2 : list jsstring) :
  classified inside (l1 ++ l2)
  = classified inside l1 ++ classified (inside_after inside l1) l2.
Proof.
  revert inside. induction l1 as [|ln l1 IH]; intros inside; simpl;
    [|rewrite IH]; reflexivity.
Qed.

(** The scanner computes the declarations of the classified lines. *)
Lemma forEach_scan (todo : list jsstring) :
  forall (st : scan_state) (before : list (jsstring * line_class)),
    currentDoc st = preceding_run before ->
    definitions (forEach scan_line st todo (length before))
    = definitions st
        ++ declarations_from before (classified (inMultiLineComment st) todo)
    /\ inMultiLineComment (forEach scan_line st todo (length before))
       = inside_after (inMultiLineComment st) todo
    /\ currentDoc (forEach scan_line st todo (length before))
       = preceding_run (before ++ classified (inMultiLineComment st) todo).
Proof.
  induction todo as [|ln todo IH]; intros st before Hdoc.
  - cbn. rewrite !app_nil_r. auto.
  - cbn [forEach classified declarations_from inside_after fold_left].
    set (x := (ln, classify (inMultiLineComment st) ln)).
    assert (Hdoc' : currentDoc (scan_line st ln (length before))
                    = preceding_run (before ++ [x])).
    { rewrite scan_line_doc, preceding_run_snoc. unfold x; cbn [fst snd].
      rewrite Hdoc. reflexivity. }
    specialize (IH (scan_line st ln (length before)) (before ++ [x])).
    rewrite length_app, Nat.add_1_r in IH. cbn [length] in IH.
    destruct (IH Hdoc') as (Hd & Hf & Hc).
    rewrite scan_line_flag in Hd, Hf, Hc.
    rewrite Hd, Hf, Hc, (scan_line_defs _ _ _ Hdoc).
    rewrite <- !app_assoc. auto.
Qed.

Lemma parse_declarations (docText : jsstring) :
  parseGraphQLDefinitions docText
  = declarations_from [] (classified false (split_lf docText)).
Proof.
  unfold parseGraphQLDefinitions.
  destruct (forEach_scan (split_lf docText) initial []) as (H & _);
    [reflexivity | exact H].
Qed.

(** ** The declaration pattern and the grammar *)

Lemma flat_map_through {A B C : Type} (f : A -> list C) (g : B -> list C)
      (h : A -> list B) (l : list A) :
  (forall y, f y = flat_map g (h y)) ->
  flat_map f l = flat_map g (flat_map h l).
Proof.
  intros H. induction l as [|y l IH]; simpl; [reflexivity|].
  rewrite flat_map_app, H, IH. reflexivity.
Qed.

Lemma rmatch_seq_last2 (c d e : regex) (x : mstate) :
  rmatch (RSeq c (RSeq d e)) x = flat_map (rmatch e) (rmatch (RSeq c d) x).
Proof. cbn [rmatch]. apply flat_map_through. reflexivity. Qed.

Lemma rmatch_seq_last3 (b c d e : regex) (x : mstate) :
  rmatch (RSeq b (RSeq c (RSeq d e))) x
  = flat_map (rmatch e) (rmatch (RSeq b (RSeq c d)) x).
Proof.
  cbn [rmatch]. apply flat_map_through. intros y. apply rmatch_seq_last2.
Qed.

Lemma rmatch_seq_last4 (a b c d e : regex) (x : mstate) :
  rmatch (RSeq a (RSeq b (RSeq c (RSeq d e)))) x
  = flat_map (rmatch e) (rmatch (RSeq a (RSeq b (RSeq c d))) x).
Proof.
  cbn [rmatch]. apply flat_map_through. intros y. apply rmatch_seq_last3.
Qed.

Lemma definitionPattern_head (x : mstate) :
  rmatch definitionPattern x
  = flat_map (rmatch (RGroup 3 boundary)) (rmatch declaration_head x).
Proof. apply rmatch_seq_last4. Qed.

Lemma grammar_head (x : mstate) :
  rmatch grammar x
  = flat_map (rmatch (RLook boundary)) (rmatch declaration_head x).
Proof. apply rmatch_seq_last4. Qed.

(** The consuming group 3 of the code and the lookahead of the grammar
    succeed from the same states, with the same earlier captures. *)
Lemma boundary_group_or_lookahead (ys : list mstate) :
  match flat_map (rmatch (RGroup 3 boundary)) ys,
        flat_map (rmatch (RLook boundary)) ys with
  | [], [] => True
  | z1 :: _, z2 :: _ => exists s, captures z1 = (3, s) :: captures z2
  | _, _ => False
  end.
Proof.
  induction ys as [|y ys IH]; [exact I|].
  cbn [flat_map]. cbn [rmatch].
  destruct (rmatch boundary y) as [|z zs]; [exact IH|].
  cbn. eexists. reflexivity.
Qed.

Lemma exec_at_pattern_grammar (suffix : jsstring) :
  forall i,
    match exec_at definitionPattern i suffix, exec_at grammar i suffix with
    | None, None => True
    | Some m1, Some m2 => exists s, groups m1 = (3, s) :: groups m2
    | _, _ => False
    end.
Proof.
  induction suffix as [|c t IH]; intros i; cbn [exec_at];
    rewrite definitionPattern_head, grammar_head.
  - pose proof (boundary_group_or_lookahead
                  (rmatch declaration_head (MState i [] []))) as H0.
    destruct (flat_map (rmatch (RGroup 3 boundary)) _),
             (flat_map (rmatch (RLook boundary)) _); auto.
  - pose proof (boundary_group_or_lookahead
                  (rmatch declaration_head (MState i (c :: t) []))) as H1.
    destruct (flat_map (rmatch (RGroup 3 boundary)) _),
             (flat_map (rmatch (RLook boundary)) _); auto; try contradiction.
    apply IH.
Qed.

Lemma rmatch_plus_class_captures (p : code_unit -> bool) (x y : mstate) :
  In y (rmatch (RPlus (RChar p)) x) -> captures y = captures x.
Proof.
  destruct x as [i s cs]. rewrite rmatch_plus_class.
  destruct s as [|c t]; [intros []|]. destruct (p c); [|intros []].
  apply greedy_captures.
Qed.

(** Groups 1 and 2 take part in every match of the declaration head. *)
Lemma declaration_head_groups (x y : mstate) :
  In y (rmatch declaration_head x) ->
  exists k n, group 1 (captures y) = Some k /\ group 2 (captures y) = Some n.
Proof.
  unfold declaration_head. cbn [rmatch].
  intros H. apply in_flat_map in H. destruct H as (a & _ & H).
  apply in_flat_map in H. destruct H as (b & Hb & H).
  apply in_flat_map in H. destruct H as (c & Hc & H).
  apply in_map_iff in Hb. destruct Hb as (b0 & <- & _).
  apply in_map_iff in H. destruct H as (y0 & <- & Hy0).
  apply rmatch_plus_class_captures in Hc, Hy0.
  unfold capture at 1. cbn [captures group Nat.eqb].
  rewrite Hy0, Hc. cbn. eauto.
Qed.

Lemma exec_at_definitionPattern_groups (suffix : jsstring) :
  forall i m, exec_at definitionPattern i suffix = Some m ->
  exists k n, group 1 (groups m) = Some k /\ group 2 (groups m) = Some n.
Proof.
  assert (Hstep : forall i s y tl,
             rmatch definitionPattern (MState i s []) = y :: tl ->
             exists k n, group 1 (captures y) = Some k
                         /\ group 2 (captures y) = Some n).
  { intros i s y tl H. rewrite definitionPattern_head in H.
    assert (Hin : In y (flat_map (rmatch (RGroup 3 boundary))
                          (rmatch declaration_head (MState i s []))))
      by (rewrite H; left; reflexivity).
    apply in_flat_map in Hin. destruct Hin as (h & Hh & Hy).
    cbn [rmatch] in Hy. apply in_map_iff in Hy. destruct Hy as (z & <- & Hz).
    destruct (declaration_head_groups _ _ Hh) as (k & n & Hk & Hn).
    assert (Hcz : captures z = captures h).
    { unfold boundary in Hz. cbn [rmatch] in Hz. apply in_app_iff in Hz.
      destruct Hz as [Hz|Hz].
      - destruct (rest h) as [|c t]; [destruct Hz|].
        destruct (not_word c); [|destruct Hz].
        destruct Hz as [<-|[]]. reflexivity.
      - destruct (rest h); [|destruct Hz]. destruct Hz as [<-|[]]. reflexivity. }
    exists k, n. unfold capture. cbn [captures group Nat.eqb].
    rewrite Hcz. auto. }
  induction suffix as [|c t IH]; intros i m; cbn [exec_at].
  - destruct (rmatch definitionPattern (MState i [] [])) as [|y tl] eqn:E;
      [discriminate|].
    intros H; inversion H; subst m. cbn [groups]. eapply Hstep; eauto.
  - destruct (rmatch definitionPattern (MState i (c :: t) [])) as [|y tl] eqn:E;
      [apply IH|].
    intros H; inversion H; subst m. cbn [groups]. eapply Hstep; eauto.
Qed.

(** The kind and the name the code reads from a match of its pattern are
    groups 1 and 2 of the match of the grammar on the same line. *)
Lemma pattern_captures_grammar (ln : jsstring) (m : match_result) :
  str_match definitionPattern ln = Some m ->
  exists g, str_match grammar ln = Some g
            /\ group 1 (groups g) = Some (captured m 1)
            /\ group 2 (groups g) = Some (captured m 2).
Proof.
  unfold str_match, exec. cbn [Nat.ltb Nat.leb skipn]. intros H.
  pose proof (exec_at_pattern_grammar ln 0) as Hpg. rewrite H in Hpg.
  destruct (exec_at grammar 0 ln) as [g|]; [|contradiction].
  destruct Hpg as [s Hs].
  destruct (exec_at_definitionPattern_groups _ _ _ H) as (k & n & Hk & Hn).
  exists g. split; [reflexivity|]. unfold captured. rewrite Hk, Hn.
  rewrite Hs in Hk, Hn. cbn [group Nat.eqb] in Hk, Hn. auto.
Qed.

(** ** The declarations of the classified lines *)

Lemma app_same_length {A : Type} (l1 l1' l2 l2' : list A) :
  length l1 = length l1' -> l1 ++ l2 = l1' ++ l2' -> l1 = l1' /\ l2 = l2'.
Proof.
  revert l1'. induction l1 as [|a l1 IH]; intros [|b l1'] Hlen H;
    try discriminate; [auto|].
  inversion H; subst. destruct (IH l1') as [-> ->]; auto.
Qed.

Lemma declaration_at_In (before : list (jsstring * line_class))
      (x : jsstring * line_class) (d : definition) :
  In d (declaration_at before x) ->
  snd x = DeclarationLine
  /\ exists m, str_match definitionPattern (fst x) = Some m
       /\ d = mkDefinition (captured m 1) (captured m 2) (length before)
                           (trim (fst x))
                           (documentation_of (preceding_run before)).
Proof.
  unfold declaration_at. destruct (snd x); try (intros []).
  destruct (str_match definitionPattern (fst x)) as [m|]; [|intros []].
  intros [<-|[]]. split; [reflexivity|]. exists m. auto.
Qed.

Lemma declarations_from_In (todo : list (jsstring * line_class)) :
  forall before d,
    In d (declarations_from before todo) ->
    exists pre x post,
      todo = pre ++ x :: post /\ In d (declaration_at (before ++ pre) x).
Proof.
  induction todo as [|x todo IH]; intros before d; cbn [declarations_from];
    [intros []|].
  rewrite in_app_iff. intros [H|H].
  - exists [], x, todo. rewrite app_nil_r. auto.
  - destruct (IH _ _ H) as (pre & y & post & -> & Hd).
    exists (x :: pre), y, post. rewrite <- app_assoc in Hd. auto.
Qed.

Lemma declarations_from_line (todo before : list (jsstring * line_class))
      (d : definition) :
  In d (declarations_from before todo) ->
  length before <= line d < length before + length todo.
Proof.
  intros H. destruct (declarations_from_In _ _ _ H) as (pre & x & post & -> & Hd).
  apply declaration_at_In in Hd. destruct Hd as (_ & m & _ & ->).
  cbn [line]. rewrite !length_app. cbn [length]. lia.
Qed.

Lemma declarations_from_sorted (todo : list (jsstring * line_class)) :
  forall before,
    StronglySorted lt (map line (declarations_from before todo)).
Proof.
  induction todo as [|x todo IH]; intros before; cbn [declarations_from];
    [constructor|].
  assert (Hrest : Forall (lt (length before))
                    (map line (declarations_from (before ++ [x]) todo))).
  { apply Forall_forall. intros n Hn. apply in_map_iff in Hn.
    destruct Hn as (d & <- & Hd). apply declarations_from_line in Hd.
    rewrite length_app in Hd. cbn [length] in Hd. lia. }
  unfold declaration_at. destruct (snd x); try apply IH.
  destruct (str_match definitionPattern (fst x)); [|apply IH].
  cbn [app map line]. constructor; [apply IH | exact Hrest].
Qed.

Lemma strongly_sorted_nth {A : Type} (R : A -> A -> Prop) (l : list A) :
  StronglySorted R l ->
  forall i j x y, i < j -> nth_error l i = Some x -> nth_error l j = Some y ->
                  R x y.
Proof.
  induction 1 as [|a l Hs IH Hall]; intros i j x y Hij Hi Hj.
  - destruct i; discriminate.
  - destruct j as [|j]; [lia|]. cbn [nth_error] in Hj. destruct i as [|i].
    + cbn in Hi. inversion Hi; subst a. apply nth_error_In in Hj.
      rewrite Forall_forall in Hall. auto.
    + cbn [nth_error] in Hi. apply (IH i j); auto. lia.
Qed.

Lemma parse_sorted (docText : jsstring) (i j : nat) (di dj : definition) :
  i < j ->
  nth_error (parseGraphQLDefinitions docText) i = Some di ->
  nth_error (parseGraphQLDefinitions docText) j = Some dj ->
  line di < line dj.
Proof.
  intros Hij Hi Hj. rewrite parse_declarations in Hi, Hj.
  apply (strongly_sorted_nth lt _
           (declarations_from_sorted (classified false (split_lf docText)) [])
           i j);
    auto; rewrite nth_error_map; [rewrite Hi | rewrite Hj]; reflexivity.
Qed.

(** Where a declaration of the document comes from: its line, the lines
    before it, and the match of the declaration pattern on its line. *)
Lemma parse_origin (docText : jsstring) (d : definition) :
  In d (parseGraphQLDefinitions docText) ->
  exists ln m,
    nth_error (split_lf docText) (line d) = Some ln
    /\ classify (inside_after false (firstn (line d) (split_lf docText))) ln
       = DeclarationLine
    /\ str_match definitionPattern ln = Some m
    /\ kind d = captured m 1 /\ name d = captured m 2 /\ text d = trim ln
    /\ documentation d
       = documentation_of
           (preceding_run (classified false (firstn (line d) (split_lf docText)))).
Proof.
  rewrite parse_declarations. intros H.
  destruct (declarations_from_In _ _ _ H) as (pre & x & post & Hsplit & Hd).
  apply declaration_at_In in Hd. destruct Hd as (Hx & m & Hm & ->).
  destruct x as [ln c]. cbn [fst snd] in Hx, Hm. subst c.
  cbn [line kind name text documentation app fst].
  pose proof (classified_fst false (split_lf docText)) as Hfst.
  rewrite Hsplit, map_app in Hfst. cbn [map] in Hfst.
  assert (Hlen : length (map fst pre) = length pre) by apply length_map.
  assert (Hfirst : firstn (length pre) (split_lf docText) = map fst pre).
  { rewrite <- Hfst, <- Hlen, firstn_app, Nat.sub_diag, firstn_all.
    cbn [firstn]. apply app_nil_r. }
  assert (Hcls : classified false (split_lf docText)
                 = classified false (map fst pre)
                     ++ classified (inside_after false (map fst pre))
                                   (ln :: map fst post)).
  { rewrite <- Hfst at 1. apply classified_app. }
  rewrite Hsplit in Hcls. apply app_same_length in Hcls.
  2:{ rewrite classified_length. symmetry. exact Hlen. }
  exists ln, m. rewrite Hfirst.
  cbn [classified] in Hcls. destruct Hcls as [Hpre Hx'].
  inversion Hx' as [[Hx1 Hpost]].
  split.
  { rewrite <- Hfst, nth_error_app2 by lia.
    rewrite Hlen, Nat.sub_diag. reflexivity. }
  split; [congruence|].
  rewrite <- Hpre. auto 10.
Qed.

(** ** What a match of the declaration pattern reads *)

Lemma rmatch_lit (s : jsstring) :
  forall x, rmatch (RLit s) x =
            if startsWith s (rest x)
            then [MState (endIndex x + length s) (skipn (length s) (rest x))
                         (captures x)]
            else [].
Proof.
  induction s as [|c s IH]; intros [i r cs]; cbn [RLit rmatch rest startsWith].
  - cbn. rewrite Nat.add_0_r. reflexivity.
  - destruct r as [|b r]; [reflexivity|].
    destruct (eq_unit c b); cbn [andb flat_map]; [|reflexivity].
    rewrite IH, app_nil_r. unfold advance. cbn.
    destruct (startsWith s r); [|reflexivity].
    rewrite Nat.add_succ_r. reflexivity.
Qed.

Lemma startsWith_firstn (k s : jsstring) :
  startsWith k s = true -> firstn (length k) s = k.
Proof.
  revert s. induction k as [|a k IH]; intros [|b s]; cbn; try discriminate;
    try reflexivity.
  rewrite andb_true_iff, eq_unit_true. intros [-> H]. rewrite IH; auto.
Qed.

Lemma rmatch_keywords_In (x y : mstate) :
  In y (rmatch keywords x) ->
  exists k, In k kind_keywords /\ startsWith k (rest x) = true
            /\ y = MState (endIndex x + length k) (skipn (length k) (rest x))
                          (captures x).
Proof.
  unfold keywords, kind_keywords. cbn [rmatch]. rewrite !rmatch_lit.
  rewrite !in_app_iff.
  intros H.
  repeat (destruct H as [H|H]);
    match type of H with
    | In _ (if startsWith ?k _ then _ else _) =>
        destruct (startsWith k (rest x)) eqn:E; [|destruct H];
        destruct H as [<-|[]]; exists k; cbn [In]; intuition
    end.
Qed.

Lemma greedy_In (p : code_unit -> bool) (s : jsstring) :
  forall i cs y,
    In y (greedy p i s cs) ->
    exists j, j <= length (take_while p s) /\ y = MState (i + j) (skipn j s) cs.
Proof.
  induction s as [|c t IH]; intros i cs y; cbn [greedy take_while].
  - intros [<-|[]]. exists 0. rewrite Nat.add_0_r. auto.
  - destruct (p c).
    + rewrite in_app_iff. intros [H|[<-|[]]].
      * destruct (IH _ _ _ H) as (j & Hj & ->). exists (S j). cbn [length skipn].
        rewrite Nat.add_succ_r. split; [lia | reflexivity].
      * exists 0. rewrite Nat.add_0_r. split; [lia | reflexivity].
    + intros [<-|[]]. exists 0. rewrite Nat.add_0_r. auto.
Qed.

Lemma skipn_inside_take_while {A : Type} (p : A -> bool) (s : list A) (j : nat) :
  j < length (take_while p s) ->
  exists c t, skipn j s = c :: t /\ p c = true.
Proof.
  revert j. induction s as [|c t IH]; intros j; cbn [take_while]; [cbn; lia|].
  destruct (p c) eqn:E; [|cbn; lia]. destruct j as [|j]; cbn [length skipn].
  - intros _. eauto.
  - intros H. apply IH. lia.
Qed.

Lemma rmatch_plus_class_In (p : code_unit -> bool) (x y : mstate) :
  In y (rmatch (RPlus (RChar p)) x) ->
  exists j, 1 <= j <= length (take_while p (rest x))
            /\ y = MState (endIndex x + j) (skipn j (rest x)) (captures x).
Proof.
  destruct x as [i s cs]. rewrite rmatch_plus_class. cbn [rest endIndex captures].
  destruct s as [|c t]; [intros []|]. cbn [take_while].
  destruct (p c); [|intros []].
  intros H. apply greedy_In in H. destruct H as (j & Hj & ->).
  exists (S j). cbn [length skipn]. rewrite Nat.add_succ_r.
  split; [lia | reflexivity].
Qed.

Lemma rmatch_plus_class_head (p : code_unit -> bool) (x y : mstate) :
  In y (rmatch (RPlus (RChar p)) x) ->
  exists c t, rest x = c :: t /\ p c = true.
Proof.
  intros H. apply rmatch_plus_class_In in H. destruct H as (j & Hj & _).
  destruct (rest x) as [|c t]; [cbn in Hj; lia|].
  cbn [take_while] in Hj. destruct (p c) eqn:E; [eauto | cbn in Hj; lia].
Qed.

Lemma rmatch_boundary_In (x y : mstate) :
  In y (rmatch boundary x) ->
  captures y = captures x
  /\ (rest x = [] \/ exists c t, rest x = c :: t /\ is_word c = false).
Proof.
  unfold boundary. cbn [rmatch]. rewrite in_app_iff. intros [H|H].
  - destruct (rest x) as [|c t] eqn:E; [destruct H|].
    destruct (not_word c) eqn:En; [|destruct H]. destruct H as [<-|[]].
    split; [reflexivity|]. right. exists c, t. split; [reflexivity|].
    unfold not_word in En. apply negb_true_iff in En. exact En.
  - destruct (rest x); [|destruct H]. destruct H as [<-|[]]. auto.
Qed.

(** Every way the declaration pattern matches starts at index 0 with a
    kind keyword, takes all the white space after it, at least one
    character, and then all the identifier characters, at least one. *)
Lemma definitionPattern_In (i : nat) (s : jsstring) (y : mstate) :
  In y (rmatch definitionPattern (MState i s [])) ->
  i = 0
  /\ exists k, In k kind_keywords /\ startsWith k s = true
       /\ take_while is_space (skipn (length k) s) <> []
       /\ take_while is_word (drop_while is_space (skipn (length k) s)) <> []
       /\ group 1 (captures y) = Some k
       /\ group 2 (captures y)
          = Some (take_while is_word (drop_while is_space (skipn (length k) s))).
Proof.
  rewrite definitionPattern_head. intros H.
  apply in_flat_map in H. destruct H as (h & Hh & Hy).
  cbn [rmatch] in Hy. apply in_map_iff in Hy. destruct Hy as (z & <- & Hz).
  apply rmatch_boundary_In in Hz. destruct Hz as [Hcz Hbound].
  unfold declaration_head in Hh. cbn [rmatch] in Hh.
  apply in_flat_map in Hh. destruct Hh as (a & Ha & Hh).
  cbn [endIndex] in Ha. destruct (i =? 0) eqn:Ei; [|destruct Ha].
  apply Nat.eqb_eq in Ei. subst i. destruct Ha as [<-|[]].
  apply in_flat_map in Hh. destruct Hh as (b & Hb & Hh).
  apply in_flat_map in Hh. destruct Hh as (c & Hc & Hh).
  apply in_map_iff in Hb. destruct Hb as (b0 & <- & Hb0).
  apply rmatch_keywords_In in Hb0. destruct Hb0 as (k & Hk & Hsw & ->).
  cbn [rest endIndex captures] in Hsw.
  apply rmatch_plus_class_In in Hc. destruct Hc as (j1 & Hj1 & ->).
  unfold capture in Hj1 |- *. cbn [rest endIndex captures] in Hj1 |- *.
  apply in_map_iff in Hh. destruct Hh as (y0 & <- & Hy0).
  pose proof (rmatch_plus_class_head _ _ _ Hy0) as Hhead.
  apply rmatch_plus_class_In in Hy0. destruct Hy0 as (j2 & Hj2 & ->).
  unfold capture in Hj2, Hbound, Hcz, Hhead |- *.
  cbn [rest endIndex captures] in Hj2, Hbound, Hcz, Hhead |- *.
  set (r := skipn (length k) s) in *.
  (* the white space is taken whole: an identifier character follows *)
  assert (Hsp : j1 = length (take_while is_space r)).
  { destruct (Nat.eq_dec j1 (length (take_while is_space r))) as [|Hne];
      [assumption|exfalso].
    destruct (skipn_inside_take_while is_space r j1) as (c & t & Hsk & Hc);
      [lia|].
    destruct Hhead as (c' & t' & Hsk' & Hc'). rewrite Hsk in Hsk'.
    inversion Hsk'; subst. rewrite (is_space_not_word _ Hc) in Hc'.
    discriminate. }
  subst j1. rewrite skipn_take_while in *.
  set (r1 := drop_while is_space r) in *.
  (* so is the name: the boundary follows *)
  assert (Hnm : j2 = length (take_while is_word r1)).
  { destruct (Nat.eq_dec j2 (length (take_while is_word r1))) as [|Hne];
      [assumption|exfalso].
    destruct (skipn_inside_take_while is_word r1 j2) as (c & t & Hsk & Hc);
      [lia|].
    rewrite Hsk in Hbound. destruct Hbound as [Hb|(c' & t' & Hb & Hc')];
      [discriminate|]. inversion Hb; subst. congruence. }
  subst j2. subst r1 r.
  split; [reflexivity|]. exists k. split; [exact Hk|]. split; [exact Hsw|].
  split; [intros E; rewrite E in Hj1; cbn in Hj1; lia|].
  split; [intros E; rewrite E in Hj2; cbn in Hj2; lia|].
  cbn [group Nat.eqb]. rewrite Hcz. cbn [captures group Nat.eqb].
  replace (0 + length k - 0) with (length k) by lia.
  rewrite (startsWith_firstn _ _ Hsw). split; [reflexivity|].
  f_equal.
  match goal with
  | |- firstn ?n _ = take_while is_word ?l =>
      replace n with (length (take_while is_word l)) by lia
  end.
  apply firstn_take_while.
Qed.

Lemma exec_at_definitionPattern_inv (suffix : jsstring) :
  forall i m,
    exec_at definitionPattern i suffix = Some m ->
    exists y tl, rmatch definitionPattern (MState 0 suffix []) = y :: tl
                 /\ i = 0 /\ groups m = captures y.
Proof.
  induction suffix as [|c t IH]; intros i m; cbn [exec_at].
  - destruct (rmatch definitionPattern (MState i [] [])) as [|y tl] eqn:E;
      [discriminate|].
    assert (Hi : i = 0).
    { eapply definitionPattern_In. rewrite E. left. reflexivity. }
    subst i. intros H; inversion H; subst m. exists y, tl. auto.
  - destruct (rmatch definitionPattern (MState i (c :: t) [])) as [|y tl] eqn:E.
    + intros H. destruct (IH _ _ H) as (_ & _ & _ & Hi & _). discriminate.
    + assert (Hi : i = 0).
      { eapply definitionPattern_In. rewrite E. left. reflexivity. }
      subst i. intros H; inversion H; subst m. exists y, tl. auto.
Qed.

(** A line that matches the declaration pattern, read directly. *)
Lemma definitionPattern_reads (ln : jsstring) (m : match_result) :
  str_match definitionPattern ln = Some m ->
  In (captured m 1) kind_keywords
  /\ startsWith (captured m 1) ln = true
  /\ take_while is_space (skipn (length (captured m 1)) ln) <> []
  /\ captured m 2
     = take_while is_word
         (drop_while is_space (skipn (length (captured m 1)) ln))
  /\ captured m 2 <> [].
Proof.
  unfold str_match, exec. cbn [Nat.ltb Nat.leb skipn]. intros H.
  destruct (exec_at_definitionPattern_inv _ _ _ H) as (y & tl & Hy & _ & Hg).
  assert (Hin : In y (rmatch definitionPattern (MState 0 ln [])))
    by (rewrite Hy; left; reflexivity).
  apply definitionPattern_In in Hin.
  destruct Hin as (_ & k & Hk & Hsw & Hsp & Hnm & H1 & H2).
  unfold captured. rewrite Hg, H1, H2. auto.
Qed.

Lemma keyword_starts_with_content (k ln : jsstring) :
  In k kind_keywords -> startsWith k ln = true ->
  exists c t, ln = c :: t /\ is_space c = false.
Proof.
  unfold kind_keywords. cbn [In]. intros H Hsw.
  assert (Hk : exists a k', k = a :: k' /\ is_space a = false).
  { repeat (destruct H as [<-|H];
            [match goal with
             | |- exists a k', ?k = _ /\ _ =>
                 exists (hd 0%N k), (tl k); split; reflexivity
             end|]).
    destruct H. }
  destruct Hk as (a & k' & -> & Ha).
  destruct ln as [|c t]; [discriminate Hsw|].
  cbn [startsWith] in Hsw. apply andb_true_iff in Hsw. destruct Hsw as [Hc _].
  apply eq_unit_true in Hc. subst c. eauto.
Qed.

Lemma drop_while_snoc_stop {A : Type} (p : A -> bool) (l : list A) (c : A) :
  p c = false -> drop_while p (l ++ [c]) <> [].
Proof.
  intros Hc. induction l as [|x l IH]; cbn; [rewrite Hc; discriminate|].
  destruct (p x); [exact IH | discriminate].
Qed.

Lemma trim_nil_inv (ln : jsstring) : trim ln = [] -> drop_while is_space ln = [].
Proof.
  unfold trim. intros H.
  destruct (drop_while is_space ln) as [|c t] eqn:E; [reflexivity|exfalso].
  pose proof (drop_while_head _ _ _ _ E) as Hc.
  apply (f_equal (@rev _)) in H. rewrite rev_involutive in H. cbn [rev] in H.
  exact (drop_while_snoc_stop is_space (rev t) c Hc H).
Qed.

(** A line that is empty after trimming is no declaration. *)
Lemma trim_nil_no_match (ln : jsstring) :
  trim ln = [] -> str_match definitionPattern ln = None.
Proof.
  intros Ht. destruct (str_match definitionPattern ln) as [m|] eqn:E;
    [exfalso | reflexivity].
  destruct (definitionPattern_reads _ _ E) as (Hk & Hsw & _).
  destruct (keyword_starts_with_content _ _ Hk Hsw) as (c & t & -> & Hc).
  apply trim_nil_inv in Ht. cbn in Ht. rewrite Hc in Ht. discriminate.
Qed.

(** ** The scanner's output (C8) *)

Example pattern_reads_declaration :
  option_map (fun m => (captured m 1, captured m 2))
             (str_match definitionPattern (lit "type  User_1{"))
  = Some (lit "type", lit "User_1").
Proof. reflexivity. Qed.

Example pattern_needs_space :
  str_match definitionPattern (lit "typeFoo {") = None.
Proof. reflexivity. Qed.

Example pattern_is_anchored :
  str_match definitionPattern (lit " type Foo {") = None.
Proof. reflexivity. Qed.

(** C8.  The declarations of a document come in strictly ascending line
    order, and the kind and the name of each are groups 1 and 2 of the
    match of the declaration grammar
    [^(type|enum|union|interface|scalar|input)\s+([A-Za-z0-9_]+)(?=[^A-Za-z0-9_]|$)]
    on the raw line at its line index. *)
Theorem scanner_sorted_and_grammar (docText : jsstring) :
  let defs := parseGraphQLDefinitions docText in
  (forall i j di dj,
      i < j -> nth_error defs i = Some di -> nth_error defs j = Some dj ->
      line di < line dj)
  /\ (forall d, In d defs ->
        exists ln g,
          nth_error (split_lf docText) (line d) = Some ln
          /\ str_match grammar ln = Some g
          /\ group 1 (groups g) = Some (kind d)
          /\ group 2 (groups g) = Some (name d)).
Proof.
  split.
  - intros i j di dj. apply parse_sorted.
  - intros d Hd.
    destruct (parse_origin _ _ Hd) as (ln & m & Hln & _ & Hm & Hk & Hn & _).
    destruct (pattern_captures_grammar _ _ Hm) as (g & Hg & H1 & H2).
    exists ln, g. rewrite Hk, Hn. auto.
Qed.

(** ** The resolver (C2) *)

Lemma find_first {A : Type} (p : A -> bool) (l : list A) (x : A) :
  List.find p l = Some x ->
  exists l1 l2, l = l1 ++ x :: l2 /\ p x = true
                /\ forall y, In y l1 -> p y = false.
Proof.
  induction l as [|a l IH]; cbn; [discriminate|].
  destruct (p a) eqn:E.
  - intros H; inversion H; subst a. exists [], l. cbn. intuition.
  - intros H. destruct (IH H) as (l1 & l2 & -> & Hx & Hl1).
    exists (a :: l1), l2. cbn. intuition; subst; auto.
Qed.

(** C2.  The resolver returns the first declaration, in document order,
    whose name is the query name, code unit by code unit, and none when
    no declaration has that name; every other declaration of that name
    is on a later line.  With [type Foo] on line 2 and [enum Foo] on
    line 10 the declaration of line 2 is returned. *)
Theorem resolver_first_match :
  (forall docText query,
      let defs := parseGraphQLDefinitions docText in
      match find_definition defs query with
      | Some d =>
          name d = query
          /\ (exists earlier later,
                 defs = earlier ++ d :: later
                 /\ forall e, In e earlier -> name e <> query)
          /\ (forall d', In d' defs -> name d' = query ->
                         d' = d \/ line d < line d')
      | None => forall d, In d defs -> name d <> query
      end)
  /\ option_map (fun d => (kind d, line d))
                (find_definition (parseGraphQLDefinitions two_Foo) (lit "Foo"))
     = Some (lit "type", 2)
  /\ find_definition (parseGraphQLDefinitions two_Foo) (lit "foo") = None.
Proof.
  split; [|split; reflexivity].
  intros docText query defs. unfold find_definition, find.
  destruct (List.find _ defs) as [d|] eqn:E.
  - destruct (find_first _ _ _ E) as (l1 & l2 & Hsplit & Hd & Hl1).
    apply str_eqb_eq in Hd. split; [exact Hd|]. split.
    + exists l1, l2. split; [exact Hsplit|].
      intros e He. apply str_eqb_neq. auto.
    + intros d' Hd' Hname. rewrite Hsplit in Hd'. apply in_app_iff in Hd'.
      destruct Hd' as [Hin|[Heq|Hin]].
      * apply Hl1 in Hin. apply str_eqb_neq in Hin. contradiction.
      * left. auto.
      * right. apply In_nth_error in Hin. destruct Hin as [n Hn].
        apply (parse_sorted docText (length l1) (length l1 + S n)); [lia| |];
          fold defs; rewrite Hsplit.
        -- rewrite nth_error_app2, Nat.sub_diag by lia. reflexivity.
        -- rewrite nth_error_app2 by lia.
           replace (length l1 + S n - length l1) with (S n) by lia. exact Hn.
  - intros d Hd. apply str_eqb_neq. apply (find_none _ _ E d Hd).
Qed.

(** ** Documentation comments (C3) *)

Lemma classify_blank (inside : bool) (ln : jsstring) :
  classify inside ln = BlankLine <-> inside = false /\ trim ln = [].
Proof.
  unfold classify. split.
  - destruct (startsWith TRIPLE_QUOTE (trim ln)); [discriminate|].
    destruct inside; [discriminate|].
    destruct (startsWith (lit "#") (trim ln)); [discriminate|]. cbn [orb].
    destruct (str_match definitionPattern ln); [discriminate|].
    destruct (trim ln); [auto | discriminate].
  - intros [-> Ht]. rewrite (trim_nil_no_match _ Ht), Ht. reflexivity.
Qed.

Lemma scan_line_blank (st : scan_state) (ln : jsstring) (idx : nat) :
  trim ln = [] ->
  scan_line st ln idx
  = if inMultiLineComment st
    then mkScan (definitions st) (currentDoc st ++ [ln]) true
    else st.
Proof.
  intros Ht. unfold scan_line. rewrite (trim_nil_no_match _ Ht), Ht. cbn.
  destruct (inMultiLineComment st); reflexivity.
Qed.

(** Inside a block comment a line that is empty after trimming is a
    comment line (rule 2): the scanner appends it to the pending
    documentation. *)
Lemma blank_line_inside_block_comment_is_appended :
  inMultiLineComment inside_comment = true
  /\ trim (lit "  ") = []
  /\ scan_line inside_comment (lit "  ") 2 <> inside_comment
  /\ currentDoc (scan_line inside_comment (lit "  ") 2)
     = currentDoc inside_comment ++ [lit "  "].
Proof.
  split; [reflexivity|]. split; [reflexivity|]. split; [|reflexivity].
  intros H. apply (f_equal (fun st => length (currentDoc st))) in H.
  vm_compute in H. discriminate H.
Qed.

(** C3.  The documentation of a declaration is the run of comment lines
    (lines of block comments and [#] lines) that immediately precedes it,
    joined by newlines, and none when the run is empty: going back from
    the declaration, the run ends at the first line that is a declaration
    or other content, and blank lines are passed over.  A line with
    content that is neither comment nor declaration empties the pending
    run; a blank line, that is a line that is empty after trimming and is
    no comment line, leaves the scanner state as it is, so it does not
    end the run. *)
Theorem documentation_is_preceding_run :
  (forall docText d,
      In d (parseGraphQLDefinitions docText) ->
      documentation d
      = documentation_of
          (preceding_run
             (classified false (firstn (line d) (split_lf docText)))))
  /\ (forall st ln idx,
         classify (inMultiLineComment st) ln = OtherLine ->
         scan_line st ln idx = mkScan (definitions st) [] (inMultiLineComment st))
  /\ (forall inside ln,
         classify inside ln = BlankLine <-> inside = false /\ trim ln = [])
  /\ (forall st ln idx,
         classify (inMultiLineComment st) ln = BlankLine ->
         scan_line st ln idx = st)
  /\ (forall st ln idx,
         inMultiLineComment st = false -> trim ln = [] ->
         scan_line st ln idx = st)
  /\ (forall before ln,
         preceding_run (before ++ [(ln, BlankLine)]) = preceding_run before)
  /\ map (fun d => (name d, documentation d)) (parseGraphQLDefinitions documented)
     = [ (lit "User",
          Some (unlines [TRIPLE_QUOTE; lit "A user"; lit ""; TRIPLE_QUOTE]));
         (lit "Role", Some (unlines [lit "# the roles"; lit "# of a user"]));
         (lit "Date", None) ].
Proof.
  split.
  { intros docText d Hd.
    destruct (parse_origin _ _ Hd) as (ln & m & _ & _ & _ & _ & _ & _ & Hdoc).
    exact Hdoc. }
  split.
  { intros st ln idx. scan_cases st ln; rewrite ?Einside; try discriminate.
    reflexivity. }
  split; [exact classify_blank|].
  split.
  { intros st ln idx Hc. apply classify_blank in Hc. destruct Hc as [Hin Ht].
    rewrite (scan_line_blank _ _ _ Ht), Hin. reflexivity. }
  split.
  { intros st ln idx Hin Ht. rewrite (scan_line_blank _ _ _ Ht), Hin.
    reflexivity. }
  split; [|reflexivity].
  intros before ln. rewrite preceding_run_snoc. reflexivity.
Qed.

(** ** Block comments (C5) *)

Lemma inside_after_parity (ls : list jsstring) :
  forall inside,
    inside_after inside ls
    = xorb inside (Nat.odd (length (filter toggles ls))).
Proof.
  unfold inside_after.
  induction ls as [|ln ls IH]; intros inside; cbn [fold_left filter].
  - cbn. destruct inside; reflexivity.
  - rewrite IH. destruct (toggles ln); cbn [length].
    + rewrite Nat.odd_succ, <- Nat.negb_odd.
      destruct inside, (Nat.odd (length (filter toggles ls))); reflexivity.
    + destruct inside; reflexivity.
Qed.

Lemma scan_line_inside (st : scan_state) (ln : jsstring) (idx : nat) :
  inMultiLineComment st = true ->
  currentDoc (scan_line st ln idx) = currentDoc st ++ [ln]
  /\ definitions (scan_line st ln idx) = definitions st.
Proof.
  intros Hin. unfold scan_line. rewrite Hin.
  destruct (startsWith TRIPLE_QUOTE (trim ln));
    [destruct (match_count (RLit TRIPLE_QUOTE) (trim ln) =? 2)|]; auto.
Qed.

Lemma scan_line_two_quotes (st : scan_state) (ln : jsstring) (idx : nat) :
  match_count (RLit TRIPLE_QUOTE) (trim ln) = 2 ->
  inMultiLineComment (scan_line st ln idx) = inMultiLineComment st.
Proof.
  intros Hc. rewrite scan_line_flag. unfold toggles. rewrite Hc.
  cbn. rewrite andb_false_r. destruct (inMultiLineComment st); reflexivity.
Qed.

Lemma forEach_app {St : Type} (f : St -> jsstring -> nat -> St)
      (l1 l2 : list jsstring) :
  forall st idx,
    forEach f st (l1 ++ l2) idx = forEach f (forEach f st l1 idx) l2 (idx + length l1).
Proof.
  induction l1 as [|x l1 IH]; intros st idx; cbn [app forEach length].
  - rewrite Nat.add_0_r. reflexivity.
  - rewrite IH, Nat.add_succ_r. reflexivity.
Qed.

Lemma forEach_inside (after : list jsstring) :
  forall st idx,
    inMultiLineComment st = true ->
    (forall ln, In ln after -> toggles ln = false) ->
    definitions (forEach scan_line st after idx) = definitions st.
Proof.
  induction after as [|ln after IH]; intros st idx Hin Hno; [reflexivity|].
  cbn [forEach]. rewrite IH.
  - apply scan_line_inside. exact Hin.
  - rewrite scan_line_flag, Hin, (Hno ln) by (left; reflexivity). reflexivity.
  - intros l Hl. apply Hno. right. exact Hl.
Qed.

(** C5.  Inside a block comment every line is appended to the pending
    documentation and no declaration is emitted, whatever the line holds;
    a line whose trimmed text holds the triple quote exactly twice leaves
    the flag as it is; and when an odd number of lines that open or close
    a block comment is followed by none, the lines after them give no
    declaration: the declarations of the document are those of the lines
    before. *)
Theorem block_comment_swallows_lines :
  (forall st ln idx,
      inMultiLineComment st = true ->
      currentDoc (scan_line st ln idx) = currentDoc st ++ [ln]
      /\ definitions (scan_line st ln idx) = definitions st)
  /\ (forall st ln idx,
         match_count (RLit TRIPLE_QUOTE) (trim ln) = 2 ->
         inMultiLineComment (scan_line st ln idx) = inMultiLineComment st)
  /\ (forall docText before after,
         split_lf docText = before ++ after ->
         Nat.odd (length (filter toggles before)) = true ->
         (forall ln, In ln after -> toggles ln = false) ->
         parseGraphQLDefinitions docText
         = definitions (forEach scan_line initial before 0)
         /\ forall d, In d (parseGraphQLDefinitions docText) ->
                      line d < length before)
  /\ map (fun d => (name d, line d)) (parseGraphQLDefinitions unterminated)
     = [(lit "A", 1)].
Proof.
  split; [exact scan_line_inside|].
  split; [exact scan_line_two_quotes|].
  split; [|reflexivity].
  intros docText before after Hsplit Hodd Hno.
  assert (Heq : parseGraphQLDefinitions docText
                = definitions (forEach scan_line initial before 0)).
  { unfold parseGraphQLDefinitions. rewrite Hsplit, forEach_app.
    apply forEach_inside; [|exact Hno].
    destruct (forEach_scan before initial []) as (_ & Hf & _); [reflexivity|].
    cbn [length] in Hf. rewrite Hf, inside_after_parity, Hodd. reflexivity. }
  split; [exact Heq|].
  intros d Hd. rewrite Heq in Hd.
  destruct (forEach_scan before initial []) as (Hdefs & _); [reflexivity|].
  cbn [length] in Hdefs. rewrite Hdefs in Hd. cbn [definitions initial app] in Hd.
  apply declarations_from_line in Hd. rewrite classified_length in Hd.
  cbn [length] in Hd. lia.
Qed.

(** ** Span expansion (C4, C7) *)

Lemma join_snoc (sep : jsstring) (l : list jsstring) (x : jsstring) :
  l <> [] -> join sep (l ++ [x]) = join sep l ++ sep ++ x.
Proof.
  induction l as [|a l IH]; [congruence|]. intros _.
  destruct l as [|b l]; [reflexivity|].
  change (join sep ((a :: b :: l) ++ [x]))
    with (a ++ sep ++ join sep ((b :: l) ++ [x])).
  rewrite IH by discriminate.
  change (join sep (a :: b :: l)) with (a ++ sep ++ join sep (b :: l)).
  rewrite <- !app_assoc. reflexivity.
Qed.

Lemma brace_balance_app (l1 l2 : list jsstring) :
  brace_balance (l1 ++ l2) = (brace_balance l1 + brace_balance l2)%Z.
Proof.
  unfold brace_balance. induction l1 as [|a l1 IH]; cbn [app fold_right];
    [reflexivity|]. rewrite IH. lia.
Qed.

Lemma brace_balance_one (ln : jsstring) : brace_balance [ln] = brace_delta ln.
Proof. unfold brace_balance. cbn. rewrite brace_delta_count. lia. Qed.

Lemma brace_loop_spec (remaining : list jsstring) :
  forall consumed,
    consumed <> [] ->
    exists n,
      n <= length remaining
      /\ brace_loop remaining (join [LF] consumed) (brace_balance consumed)
         = join [LF] (consumed ++ firstn n remaining)
      /\ (forall m, m < n ->
                    (0 < brace_balance (consumed ++ firstn m remaining))%Z)
      /\ (n = length remaining
          \/ (brace_balance (consumed ++ firstn n remaining) <= 0)%Z).
Proof.
  induction remaining as [|ln remaining IH]; intros consumed Hne.
  - exists 0. cbn. rewrite app_nil_r. repeat split; auto. intros m Hm. lia.
  - cbn [brace_loop]. destruct (0 <? brace_balance consumed)%Z eqn:E.
    + apply Z.ltb_lt in E.
      destruct (IH (consumed ++ [ln])) as (n & Hn & Hloop & Hpos & Hend);
        [intros H; apply app_eq_nil in H; destruct H; discriminate|].
      rewrite join_snoc, brace_balance_app, brace_balance_one in Hloop by exact Hne.
      exists (S n). cbn [length firstn].
      split; [lia|]. split.
      { rewrite Hloop, <- app_assoc. reflexivity. }
      split.
      { intros [|m] Hm; cbn [firstn].
        - rewrite app_nil_r. exact E.
        - specialize (Hpos m ltac:(lia)). rewrite <- app_assoc in Hpos.
          exact Hpos. }
      rewrite <- app_assoc in Hend. destruct Hend as [->|Hend]; auto.
    + apply Z.ltb_ge in E. exists 0. cbn [firstn]. rewrite app_nil_r.
      split; [lia|]. split; [reflexivity|]. split; [intros m Hm; lia | auto].
Qed.

Lemma union_loop_spec (remaining : list jsstring) :
  forall consumed,
    consumed <> [] ->
    union_loop remaining (join [LF] consumed)
    = join [LF] (consumed ++ take_while continues_union remaining).
Proof.
  induction remaining as [|ln remaining IH]; intros consumed Hne;
    cbn [union_loop take_while]; [rewrite app_nil_r; reflexivity|].
  unfold continues_union at 1.
  destruct (startsWith (lit "|") (trim ln)); [|rewrite app_nil_r; reflexivity].
  rewrite <- join_snoc by exact Hne. rewrite IH.
  - rewrite <- app_assoc. reflexivity.
  - intros H; apply app_eq_nil in H; destruct H; discriminate.
Qed.

Lemma includes_In (arr : list jsstring) (x : jsstring) :
  includes arr x = true <-> In x arr.
Proof.
  unfold includes. rewrite existsb_exists. split.
  - intros (y & Hy & E). apply str_eqb_eq in E. subst. exact Hy.
  - intros H. exists x. split; [exact H | apply str_eqb_refl].
Qed.

Lemma skipn_at {A : Type} (l : list A) (i : nat) (x : A) :
  nth_error l i = Some x -> skipn i l = x :: skipn (i + 1) l.
Proof.
  revert i. induction l as [|a l IH]; intros [|i]; cbn; try discriminate.
  - intros H; inversion H; reflexivity.
  - apply IH.
Qed.

(** C4.  For the kinds [type], [interface], [input] and [enum] the span
    is the introducer line and the [n] lines after it, joined by
    newlines, where the balance of [{] over [}] on the lines taken so far
    is positive before each line taken, and after the last one the
    document ends or the balance is not positive.  [type User {],
    [  id: ID!], [}] gives those three lines; [type X {] that is never
    closed gives all the lines to the end of the document. *)
Theorem brace_span_expansion :
  (forall lines d intro,
      In (kind d) braced_kinds ->
      nth_error lines (line d) = Some intro ->
      exists n,
        full_definition lines d
        = Normal (join [LF] (firstn (S n) (skipn (line d) lines)))
        /\ line d + n < length lines
        /\ (forall m, m < n ->
              (0 < brace_balance (firstn (S m) (skipn (line d) lines)))%Z)
        /\ (line d + S n = length lines
            \/ (brace_balance (firstn (S n) (skipn (line d) lines)) <= 0)%Z))
  /\ onHover (Some user_type) 7
     = Normal (Some (markdown
         (unlines [ FENCE ++ lit "graphql"; lit "type User {"; lit "  id: ID!";
                    lit "}"; FENCE ])))
  /\ onHover (Some open_type) 5
     = Normal (Some (markdown
         (unlines [ FENCE ++ lit "graphql"; lit "type X {"; lit "  a: Int";
                    lit ""; lit "scalar Date"; FENCE ]))).
Proof.
  split; [|split; reflexivity].
  intros lines d intro Hkind Hintro. unfold full_definition.
  rewrite Hintro. apply includes_In in Hkind. rewrite Hkind.
  rewrite (skipn_at _ _ _ Hintro).
  destruct (brace_loop_spec (skipn (line d + 1) lines) [intro])
    as (n & Hn & Hloop & Hpos & Hend); [discriminate|].
  rewrite brace_balance_one in Hloop. cbn [join] in Hloop.
  rewrite length_skipn in Hn, Hend.
  assert (Hlt : line d < length lines)
    by (apply nth_error_Some; rewrite Hintro; discriminate).
  exists n. cbn [firstn]. split; [rewrite Hloop; reflexivity|].
  split; [lia|]. split; [exact Hpos|].
  destruct Hend as [Hend|Hend]; [left; lia | right; exact Hend].
Qed.

(** C7.  For the kind [union] the span is the introducer line and then
    every following line whose trimmed text begins with [|], up to the
    first line that does not or the end of the document, braces playing
    no part; for the kind [scalar] the span is the introducer line
    alone. *)
Theorem union_and_scalar_expansion :
  (forall lines d intro,
      kind d = lit "union" ->
      nth_error lines (line d) = Some intro ->
      full_definition lines d
      = Normal (join [LF] (intro :: take_while continues_union
                                     (skipn (line d + 1) lines))))
  /\ (forall lines d intro,
         kind d = lit "scalar" ->
         nth_error lines (line d) = Some intro ->
         full_definition lines d = Normal intro)
  /\ onHover (Some union_lines) 6
     = Normal (Some (markdown
         (unlines [ FENCE ++ lit "graphql"; lit "union U ="; lit "  | A";
                    lit "  | B {"; FENCE ])))
  /\ onHover (Some user_type) 34
     = Normal (Some (markdown
         (unlines [ FENCE ++ lit "graphql"; lit "scalar Date"; FENCE ]))).
Proof.
  split; [|split; [|split; reflexivity]].
  - intros lines d intro Hkind Hintro. unfold full_definition.
    rewrite Hintro, Hkind. cbn [includes existsb].
    replace (str_eqb (lit "union") (lit "type") || _) with false by reflexivity.
    rewrite str_eqb_refl.
    rewrite (union_loop_spec _ [intro]) by discriminate. reflexivity.
  - intros lines d intro Hkind Hintro. unfold full_definition.
    rewrite Hintro, Hkind. reflexivity.
Qed.

(** ** The three queries (C9, C10, C1) *)

Lemma full_definition_normal (lines : list jsstring) (d : definition)
      (intro : jsstring) :
  nth_error lines (line d) = Some intro ->
  exists s, full_definition lines d = Normal s.
Proof.
  intros H. unfold full_definition. rewrite H.
  destruct (includes _ (kind d)); [eauto|].
  destruct (str_eqb (kind d) (lit "union")); eauto.
Qed.

Lemma find_definition_Some (defs : list definition) (w : jsstring)
      (d : definition) :
  find_definition defs w = Some d -> In d defs /\ name d = w.
Proof.
  unfold find_definition, find. intros H. apply find_some in H.
  destruct H as [Hin Hn]. apply str_eqb_eq in Hn. auto.
Qed.


Lemma onDefinition_total (uri : jsstring) (document : option jsstring)
      (offset : nat) :
  exists r, onDefinition uri document offset = Normal r.
Proof.
  unfold onDefinition. destruct document as [docText|]; [|eauto].
  destruct (word_at_spec docText offset) as [r [-> _]]. cbn [bind].
  destruct r as [w|]; [|eauto].
  destruct (no_word (Some w)); [eauto|].
  destruct (find_definition _ w); eauto.
Qed.

Lemma onHover_total (document : option jsstring) (offset : nat) :
  exists r, onHover document offset = Normal r.
Proof.
  unfold onHover. destruct document as [docText|]; [|eauto].
  destruct (word_at_spec docText offset) as [r [-> _]]. cbn [bind].
  destruct r as [w|]; [|eauto].
  destruct (no_word (Some w)); [eauto|].
  destruct (truthy (get BUILTIN_SCALARS w)); [eauto|].
  destruct (find_definition _ w) as [d|] eqn:E; [|eauto].
  apply find_definition_Some in E. destruct E as [Hin _].
  destruct (parse_origin _ _ Hin) as (ln & m & Hln & _).
  destruct (full_definition_normal _ _ _ Hln) as [s ->]. cbn [bind]. eauto.
Qed.

(** X16.  The three handlers always end with a value, never with a
    [TypeError] or a loop that does not end: none when there is no
    document or no word at the offset, none from go to definition when no
    declaration has the word for name, none from the hover when moreover
    [BUILTIN_SCALARS[word]] is not truthy, and the empty sequence for the
    symbols of a document that has no declaration or is not there. *)
Theorem queries_are_total :
  (forall uri document offset,
      exists r, onDefinition uri document offset = Normal r)
  /\ (forall document offset, exists r, onHover document offset = Normal r)
  /\ (forall document, exists r, onDocumentSymbol document = Normal r)
  /\ (forall uri offset,
         onDefinition uri None offset = Normal None
         /\ onHover None offset = Normal None)
  /\ (forall uri docText offset,
         word_at docText offset = Normal None ->
         onDefinition uri (Some docText) offset = Normal None
         /\ onHover (Some docText) offset = Normal None)
  /\ (forall uri docText offset w,
         word_at docText offset = Normal (Some w) ->
         find_definition (parseGraphQLDefinitions docText) w = None ->
         onDefinition uri (Some docText) offset = Normal None
         /\ (truthy (get BUILTIN_SCALARS w) = false ->
             onHover (Some docText) offset = Normal None))
  /\ (forall docText,
         parseGraphQLDefinitions docText = [] ->
         onDocumentSymbol (Some docText) = Normal [])
  /\ onDocumentSymbol None = Normal []
  /\ onDocumentSymbol (Some []) = Normal [].
Proof.
  split; [exact onDefinition_total|].
  split; [exact onHover_total|].
  split; [intros [docText|]; cbn; eauto|].
  split; [intros; split; reflexivity|].
  split.
  { intros uri docText offset Hw. unfold onDefinition, onHover.
    rewrite Hw. split; reflexivity. }
  split.
  { intros uri docText offset w Hw Hfind. unfold onDefinition, onHover.
    rewrite Hw. cbn [bind]. rewrite Hfind.
    split; [destruct (no_word (Some w)); reflexivity|].
    intros ->. destruct (no_word (Some w)); reflexivity. }
  split; [|split; reflexivity].
  intros docText Hnone. unfold onDocumentSymbol. rewrite Hnone. reflexivity.
Qed.

(** C9 fails on the code, by the defect of C1.  In [a: toString] the
    word at offset 4 is [toString]: it is none of the five names and no
    declaration has it for name, so the lookup cannot be satisfied and
    go to definition returns none; yet the hover returns content, made
    from the member [toString] that [BUILTIN_SCALARS] inherits from
    [Object.prototype]. *)
Theorem hover_answers_for_undeclared_member_name :
  word_at (lit "a: toString") 4 = Normal (Some (lit "toString"))
  /\ ~ In (lit "toString") builtin_names
  /\ parseGraphQLDefinitions (lit "a: toString") = []
  /\ onDefinition some_uri (Some (lit "a: toString")) 4 = Normal None
  /\ onHover (Some (lit "a: toString")) 4
     = Normal (Some (markdown
         (unlines [ FENCE ++ lit "graphql"; lit "scalar toString"; FENCE;
                    lit ""; lit "function toString() { [native code] }" ]))).
Proof.
  split; [reflexivity|]. split; [|repeat split; reflexivity].
  unfold builtin_names. cbn [In]. intros H.
  repeat (destruct H as [H|H]; [discriminate H|]). exact H.
Qed.


Lemma own_property_Some {A : Type} (props : list (jsstring * A))
      (key : jsstring) (v : A) :
  own_property props key = Some v -> In (key, v) props.
Proof.
  induction props as [|[k x] props IH]; cbn; [discriminate|].
  destruct (str_eqb k key) eqn:E.
  - apply str_eqb_eq in E. intros H; inversion H; subst. left. reflexivity.
  - intros H. right. apply IH. exact H.
Qed.

Lemma own_property_None {A : Type} (props : list (jsstring * A))
      (key : jsstring) :
  own_property props key = None <-> ~ In key (map fst props).
Proof.
  induction props as [|[k x] props IH]; cbn; [tauto|].
  destruct (str_eqb k key) eqn:E.
  - apply str_eqb_eq in E. split; [discriminate | intros H; exfalso; auto].
  - apply str_eqb_neq in E. rewrite IH. tauto.
Qed.

(** When the hover takes its built-in branch: for the five names, and
    for the names of the members of [Object.prototype]. *)
Lemma builtin_branch_iff (w : jsstring) :
  truthy (get BUILTIN_SCALARS w) = true
  <-> In w builtin_names \/ In w (map fst Object_prototype).
Proof.
  unfold get. destruct (own_property BUILTIN_SCALARS w) as [v|] eqn:E.
  - pose proof (own_property_Some _ _ _ E) as Hin.
    assert (Hw : In w builtin_names)
      by (apply (in_map fst) in Hin; exact Hin).
    assert (Hv : truthy (Own v) = true).
    { cbn [BUILTIN_SCALARS In] in Hin.
      repeat (destruct Hin as [Hin|Hin];
              [inversion Hin; subst; reflexivity|]).
      destruct Hin. }
    tauto.
  - apply own_property_None in E.
    destruct (own_property Object_prototype w) as [m|] eqn:Ep.
    + apply own_property_Some, (in_map fst) in Ep. cbn [truthy fst] in *. tauto.
    + apply own_property_None in Ep. cbn [truthy].
      split; [discriminate | intros [H|H]; contradiction].
Qed.

(** On each of the five names the hover gives the fixed text, whatever
    the document declares. *)
Lemma builtin_hover_fixed (docText : jsstring) (offset : nat) (w : jsstring) :
  In w builtin_names ->
  word_at docText offset = Normal (Some w) ->
  exists description,
    In (w, description) BUILTIN_SCALARS
    /\ onHover (Some docText) offset
       = Normal (Some (markdown
           (FENCE ++ lit "graphql" ++ [LF] ++ lit "scalar " ++ w ++ [LF]
                  ++ FENCE ++ [LF; LF] ++ description))).
Proof.
  intros Hin Hw. unfold onHover. rewrite Hw. cbn [bind].
  rewrite (word_at_nonempty _ _ _ Hw).
  assert (Ht : truthy (get BUILTIN_SCALARS w) = true)
    by (apply builtin_branch_iff; left; exact Hin).
  rewrite Ht. unfold builtin_content, get.
  destruct (own_property BUILTIN_SCALARS w) as [v|] eqn:E.
  - exists v. split; [apply own_property_Some; exact E | reflexivity].
  - apply own_property_None in E. contradiction.
Qed.

(** C1 fails on the code.  The word [constructor] is none of the five
    names, and the document declares it; yet the hover takes the built-in
    branch, because [BUILTIN_SCALARS[word]] finds the member of
    [Object.prototype] of that name, and returns the text made for a
    built-in scalar instead of the declaration. *)
Theorem hover_inherited_member_taken_for_builtin :
  ~ In (lit "constructor") builtin_names
  /\ option_map line
       (find_definition (parseGraphQLDefinitions scalar_constructor)
                        (lit "constructor"))
     = Some 0
  /\ onHover (Some scalar_constructor) 9
     = Normal (Some (markdown
         (unlines [ FENCE ++ lit "graphql"; lit "scalar constructor"; FENCE;
                    lit ""; lit "function Object() { [native code] }" ])))
  /\ onDefinition some_uri (Some scalar_constructor) 9
     = Normal (Some (LSP.mkLocation some_uri
                       (LSP.mkRange (LSP.mkPosition 0 0) (LSP.mkPosition 0 18)))).
Proof.
  split.
  - unfold builtin_names. cbn [In]. intros H.
    repeat (destruct H as [H|H]; [discriminate H|]). exact H.
  - repeat split; reflexivity.
Qed.

(** ** The theorems at concrete documents *)

Lemma documentation_is_preceding_run_witness :
  In User_in_documented (parseGraphQLDefinitions documented)
  /\ documentation User_in_documented
     = documentation_of
         (preceding_run
            (classified false
               (firstn (line User_in_documented) (split_lf documented)))).
Proof.
  assert (H : In User_in_documented (parseGraphQLDefinitions documented))
    by (vm_compute; left; reflexivity).
  split; [exact H|].
  exact (proj1 documentation_is_preceding_run documented User_in_documented H).
Defined.

Lemma brace_span_expansion_witness :
  exists n,
    full_definition (split_lf user_type) User_in_user_type
    = Normal (join [LF] (firstn (S n) (skipn 0 (split_lf user_type))))
    /\ 0 + n < length (split_lf user_type)
    /\ (forall m, m < n ->
          (0 < brace_balance (firstn (S m) (skipn 0 (split_lf user_type))))%Z)
    /\ (0 + S n = length (split_lf user_type)
        \/ (brace_balance (firstn (S n) (skipn 0 (split_lf user_type))) <= 0)%Z).
Proof.
  apply (proj1 brace_span_expansion (split_lf user_type) User_in_user_type
               (lit "type User {")).
  - left. reflexivity.
  - reflexivity.
Defined.

Lemma block_comment_swallows_lines_witness :
  parseGraphQLDefinitions unterminated
  = definitions (forEach scan_line initial
                         (firstn 4 (split_lf unterminated)) 0)
  /\ forall d, In d (parseGraphQLDefinitions unterminated) ->
               line d < length (firstn 4 (split_lf unterminated)).
Proof.
  apply (proj1 (proj2 (proj2 block_comment_swallows_lines)) unterminated
               (firstn 4 (split_lf unterminated))
               (skipn 4 (split_lf unterminated))).
  - symmetry. apply firstn_skipn.
  - reflexivity.
  - intros ln Hln. vm_compute in Hln.
    repeat (destruct Hln as [<-|Hln]; [reflexivity|]). destruct Hln.
Defined.

Lemma union_and_scalar_expansion_witness :
  full_definition (split_lf union_lines) U_in_union_lines
  = Normal (join [LF] (lit "union U ="
                         :: take_while continues_union
                              (skipn (0 + 1) (split_lf union_lines))))
  /\ full_definition (split_lf union_lines) Date_in_union_lines
     = Normal (lit "scalar Date").
Proof.
  split.
  - apply (proj1 union_and_scalar_expansion (split_lf union_lines)
                 U_in_union_lines (lit "union U =")); reflexivity.
  - apply (proj1 (proj2 union_and_scalar_expansion) (split_lf union_lines)
                 Date_in_union_lines (lit "scalar Date")); reflexivity.
Defined.

Lemma queries_are_total_witness :
  (onDefinition some_uri (Some (lit "{ }")) 1 = Normal None
   /\ onHover (Some (lit "{ }")) 1 = Normal None)
  /\ (onDefinition some_uri (Some (lit "a: Foo")) 4 = Normal None
      /\ (truthy (get BUILTIN_SCALARS (lit "Foo")) = false ->
          onHover (Some (lit "a: Foo")) 4 = Normal None))
  /\ onDocumentSymbol (Some (lit "a: Foo")) = Normal [].
Proof.
  destruct queries_are_total as (_ & _ & _ & _ & Hword & Hdecl & Hsym & _).
  split; [apply (Hword some_uri (lit "{ }") 1); reflexivity|].
  split; [apply (Hdecl some_uri (lit "a: Foo") 4 (lit "Foo")); reflexivity|].
  apply (Hsym (lit "a: Foo")). reflexivity.
Defined.


(** * Further properties of the code *)

(** ** The declaration pattern, read as a shape of the line *)

Lemma rmatch_seq_In (a b : regex) (x y : mstate) :
  In y (rmatch (RSeq a b) x)
  <-> exists z, In z (rmatch a x) /\ In y (rmatch b z).
Proof. cbn [rmatch]. apply in_flat_map. Qed.

Lemma rmatch_group_In (i : nat) (a : regex) (x y : mstate) :
  In y (rmatch (RGroup i a) x)
  <-> exists z, capture i x z = y /\ In z (rmatch a x).
Proof. cbn [rmatch]. apply in_map_iff. Qed.

Lemma rmatch_keywords_intro (k : jsstring) (x : mstate) :
  In k kind_keywords -> startsWith k (rest x) = true ->
  In (MState (endIndex x + length k) (skipn (length k) (rest x)) (captures x))
     (rmatch keywords x).
Proof.
  unfold kind_keywords, keywords. cbn [In rmatch]. rewrite !rmatch_lit.
  intros Hk Hsw. repeat rewrite in_app_iff.
  repeat (destruct Hk as [<-|Hk]; [rewrite Hsw; cbn [In]; auto 10|]).
  destruct Hk.
Qed.

Lemma rmatch_plus_class_longest (p : code_unit -> bool) (x : mstate) :
  take_while p (rest x) <> [] ->
  In (MState (endIndex x + length (take_while p (rest x)))
             (drop_while p (rest x)) (captures x))
     (rmatch (RPlus (RChar p)) x).
Proof.
  destruct x as [i s cs]. rewrite rmatch_plus_class. cbn [rest endIndex captures].
  destruct s as [|c t]; cbn [take_while drop_while]; [congruence|].
  destruct (p c); [|congruence]. intros _.
  destruct (greedy_first p (S i) t cs) as [tl ->]. left.
  cbn [length]. rewrite Nat.add_succ_r. reflexivity.
Qed.

Lemma rmatch_boundary_intro (x : mstate) :
  (forall c t, rest x = c :: t -> is_word c = false) ->
  exists z, In z (rmatch boundary x).
Proof.
  intros H. unfold boundary. cbn [rmatch]. destruct (rest x) as [|c t] eqn:E.
  - exists x. apply in_app_iff. right. left. reflexivity.
  - exists (advance x t). apply in_app_iff. left.
    unfold not_word. rewrite (H c t eq_refl). left. reflexivity.
Qed.

Lemma startsWith_comparable (k k' ln : jsstring) :
  startsWith k ln = true -> startsWith k' ln = true ->
  startsWith k k' = true \/ startsWith k' k = true.
Proof.
  revert k' ln. induction k as [|a k IH]; intros k' ln H1 H2; [left; reflexivity|].
  destruct k' as [|b k']; [right; reflexivity|].
  destruct ln as [|c ln]; [discriminate|]. cbn [startsWith] in *.
  apply andb_true_iff in H1, H2. destruct H1 as [Ea H1], H2 as [Eb H2].
  apply eq_unit_true in Ea, Eb. subst a b.
  assert (Hc : eq_unit c c = true) by (apply eq_unit_true; reflexivity).
  rewrite Hc. cbn [andb]. eapply IH; eauto.
Qed.

(** No kind keyword begins another: a line begins with at most one. *)
Lemma keyword_unique (k k' ln : jsstring) :
  In k kind_keywords -> In k' kind_keywords ->
  startsWith k ln = true -> startsWith k' ln = true -> k = k'.
Proof.
  intros Hk Hk' H1 H2.
  destruct (startsWith_comparable _ _ _ H1 H2) as [H|H];
    unfold kind_keywords in Hk, Hk'; cbn [In] in Hk, Hk';
    repeat (destruct Hk as [<-|Hk]);
    repeat (destruct Hk' as [<-|Hk']);
    try reflexivity; try discriminate H; contradiction.
Qed.

Lemma definitionPattern_matches (ln k : jsstring) :
  In k kind_keywords -> startsWith k ln = true ->
  take_while is_space (skipn (length k) ln) <> [] ->
  take_while is_word (drop_while is_space (skipn (length k) ln)) <> [] ->
  exists m, str_match definitionPattern ln = Some m.
Proof.
  intros Hk Hsw Hsp Hnm.
  assert (Hex : exists y, In y (rmatch definitionPattern (MState 0 ln []))).
  { set (x := MState 0 ln []).
    set (b := capture 1 x (MState (endIndex x + length k)
                             (skipn (length k) (rest x)) (captures x))).
    set (c := MState (endIndex b + length (take_while is_space (rest b)))
                     (drop_while is_space (rest b)) (captures b)).
    set (y0 := MState (endIndex c + length (take_while is_word (rest c)))
                      (drop_while is_word (rest c)) (captures c)).
    set (h := capture 2 c y0).
    destruct (rmatch_boundary_intro h) as [z Hz].
    { intros c0 t Hr. eapply drop_while_head. exact Hr. }
    exists (capture 3 h z). rewrite definitionPattern_head.
    apply in_flat_map. exists h. split.
    - unfold declaration_head. apply rmatch_seq_In. exists x. split.
      { cbn. left. reflexivity. }
      apply rmatch_seq_In. exists b. split.
      { apply rmatch_group_In. eexists. split; [reflexivity|].
        apply rmatch_keywords_intro; assumption. }
      apply rmatch_seq_In. exists c. split.
      { apply rmatch_plus_class_longest. exact Hsp. }
      apply rmatch_group_In. exists y0. split; [reflexivity|].
      apply rmatch_plus_class_longest. exact Hnm.
    - apply rmatch_group_In. exists z. auto. }
  destruct Hex as [y Hy]. unfold str_match, exec. cbn [Nat.ltb Nat.leb skipn].
  destruct ln as [|c0 t]; cbn [exec_at];
    destruct (rmatch definitionPattern _) as [|y1 tl]; [destruct Hy| |destruct Hy|];
    eauto.
Qed.

Lemma declaration_pattern_exact_aux (ln : jsstring) :
  (forall m, str_match definitionPattern ln = Some m ->
             declares ln (captured m 1) (captured m 2))
  /\ (forall k n, declares ln k n ->
        exists m, str_match definitionPattern ln = Some m
                  /\ captured m 1 = k /\ captured m 2 = n).
Proof.
  split.
  - intros m Hm.
    destruct (definitionPattern_reads _ _ Hm) as (H1 & H2 & H3 & H4 & H5).
    unfold declares. auto.
  - intros k n (Hk & Hsw & Hsp & Hn & Hne). subst n.
    destruct (definitionPattern_matches _ _ Hk Hsw Hsp Hne) as [m Hm].
    exists m. split; [exact Hm|].
    destruct (definitionPattern_reads _ _ Hm) as (H1 & H2 & _ & H4 & _).
    assert (Hkk : captured m 1 = k) by (eapply keyword_unique; eauto).
    rewrite H4, Hkk. auto.
Qed.

(** X2.  A line matches the declaration pattern exactly when it has the
    shape keyword, white space, identifier from column 0 on, and the two
    groups the scanner reads are that keyword and that identifier. *)
Theorem declaration_pattern_exact (ln : jsstring) :
  (forall m, str_match definitionPattern ln = Some m ->
             declares ln (captured m 1) (captured m 2))
  /\ (forall k n, declares ln k n ->
        exists m, str_match definitionPattern ln = Some m
                  /\ captured m 1 = k /\ captured m 2 = n).
Proof. exact (declaration_pattern_exact_aux ln). Qed.

(** ** The entries of the scanner's output *)

Lemma trim_keeps_prefix (ln : jsstring) (c : code_unit) (t : jsstring) :
  ln = c :: t -> is_space c = false ->
  exists trailing, ln = trim ln ++ trailing /\ forallb is_space trailing = true.
Proof.
  intros -> Hc. unfold trim. cbn [drop_while]. rewrite Hc.
  exists (rev (take_while is_space (rev (c :: t)))). split.
  - rewrite <- rev_app_distr, take_drop_while, rev_involutive. reflexivity.
  - apply forallb_forall. intros x Hx. apply in_rev in Hx.
    pose proof (take_while_all is_space (rev (c :: t))) as Hall.
    rewrite forallb_forall in Hall. auto.
Qed.

Lemma parse_shape (docText : jsstring) (d : definition) :
  In d (parseGraphQLDefinitions docText) ->
  exists ln trailing,
    nth_error (split_lf docText) (line d) = Some ln
    /\ declares ln (kind d) (name d)
    /\ forallb is_word (name d) = true
    /\ ln = text d ++ trailing
    /\ forallb is_space trailing = true.
Proof.
  intros Hd.
  destruct (parse_origin _ _ Hd) as (ln & m & Hln & _ & Hm & Hk & Hn & Ht & _).
  destruct (definitionPattern_reads _ _ Hm) as (H1 & H2 & H3 & H4 & H5).
  destruct (keyword_starts_with_content _ _ H1 H2) as (c & t & Hc & Hsp).
  destruct (trim_keeps_prefix _ _ _ Hc Hsp) as (trailing & Htr & Hall).
  exists ln, trailing. rewrite Hk, Hn, Ht. split; [exact Hln|].
  split; [unfold declares; auto|]. split; [|auto].
  rewrite H4. apply take_while_all.
Qed.

Lemma trim_without_leading_space (ln : jsstring) (c : code_unit) (t : jsstring) :
  ln = c :: t -> is_space c = false ->
  trim ln = rev (drop_while is_space (rev ln)).
Proof. intros -> Hc. unfold trim. cbn [drop_while]. rewrite Hc. reflexivity. Qed.

Lemma parse_text_is_trimmed_line (docText : jsstring) (d : definition) :
  In d (parseGraphQLDefinitions docText) ->
  exists ln,
    nth_error (split_lf docText) (line d) = Some ln
    /\ text d = trim ln
    /\ trim ln = rev (drop_while is_space (rev ln))
    /\ length (trim ln) <= length ln.
Proof.
  intros Hd.
  destruct (parse_origin _ _ Hd) as (ln & m & Hln & _ & Hm & _ & _ & Ht & _).
  destruct (definitionPattern_reads _ _ Hm) as (H1 & H2 & _).
  destruct (keyword_starts_with_content _ _ H1 H2) as (c & t & Hc & Hsp).
  destruct (trim_keeps_prefix _ _ _ Hc Hsp) as (tr & Htr & _).
  exists ln. split; [exact Hln|]. split; [exact Ht|].
  split; [eapply trim_without_leading_space; eauto|].
  rewrite Htr at 2. rewrite length_app. lia.
Qed.

(** X3.  Every entry of the scanner's output sits on a line of the
    document that begins at column 0 with its kind, one of the six
    keywords, then white space, then its name, a non-empty run of
    identifier characters; its [text] is the trimmed line, which is that
    raw line with all its trailing white space, and nothing else, taken
    away, so an indented line is never an entry and the range from 0 to
    the length of [text] lies on the line. *)
Theorem scanned_entry_shape (docText : jsstring) (d : definition) :
  In d (parseGraphQLDefinitions docText) ->
  exists ln trailing,
    nth_error (split_lf docText) (line d) = Some ln
    /\ declares ln (kind d) (name d)
    /\ forallb is_word (name d) = true
    /\ text d = trim ln
    /\ text d = rev (drop_while is_space (rev ln))
    /\ ln = text d ++ trailing
    /\ forallb is_space trailing = true
    /\ (forall c t, ln = c :: t -> is_space c = false).
Proof.
  intros Hd. destruct (parse_shape _ _ Hd) as (ln & tr & H1 & H2 & H3 & H4 & H5).
  destruct (parse_text_is_trimmed_line _ _ Hd) as (ln' & H1' & Ht & Hrev & _).
  rewrite H1 in H1'. inversion H1'; subst ln'.
  exists ln, tr. repeat (split; [assumption|]).
  split; [rewrite Ht; exact Hrev|]. repeat (split; [assumption|]).
  intros c t Hc. destruct H2 as (Hk & Hsw & _).
  destruct (keyword_starts_with_content _ _ Hk Hsw) as (c' & t' & Hc' & Hsp).
  congruence.
Qed.

(** ** The symbols of a document *)

Lemma symbol_kind_of_keyword (k : jsstring) :
  In k kind_keywords ->
  exists c, In (k, c) symbolKindMap /\ symbol_kind_of k = Own c.
Proof.
  unfold kind_keywords. cbn [In]. intros H.
  repeat (destruct H as [<-|H];
          [eexists; split; [|reflexivity]; cbn; auto 10|]).
  destruct H.
Qed.

(** X1.  The symbols of a document are its declarations, one for one and
    in the same order: the name, the category that [symbolKindMap] holds
    for the kind (the fallback to [Class] and the members inherited from
    [Object.prototype] are never used), and, for both ranges, the range
    on the line of the declaration from column 0 to the length of that
    line of the document after trimming. *)
Theorem symbols_are_the_declarations (docText : jsstring) :
  exists syms,
    onDocumentSymbol (Some docText) = Normal syms
    /\ length syms = length (parseGraphQLDefinitions docText)
    /\ forall i d,
         nth_error (parseGraphQLDefinitions docText) i = Some d ->
         exists c ln,
           In (kind d, c) symbolKindMap
           /\ nth_error (split_lf docText) (line d) = Some ln
           /\ nth_error syms i
              = Some (mkSymbol (name d) (Own c)
                        (LSP.mkRange (LSP.mkPosition (line d) 0)
                           (LSP.mkPosition (line d) (length (trim ln))))
                        (LSP.mkRange (LSP.mkPosition (line d) 0)
                           (LSP.mkPosition (line d) (length (trim ln))))).
Proof.
  unfold onDocumentSymbol. eexists. split; [reflexivity|].
  split; [apply length_map|].
  intros i d Hi. rewrite nth_error_map, Hi. cbn [option_map].
  pose proof (nth_error_In _ _ Hi) as Hd.
  destruct (parse_shape docText d Hd) as (ln & tr & Hln & (Hk & _) & _).
  destruct (parse_text_is_trimmed_line _ _ Hd) as (ln' & Hln' & Ht & _).
  rewrite Hln in Hln'. inversion Hln'; subst ln'.
  destruct (symbol_kind_of_keyword _ Hk) as (c & Hc & ->).
  exists c, ln. split; [exact Hc|]. split; [exact Hln|].
  unfold range_of. rewrite Ht. reflexivity.
Qed.

(** ** The word under the cursor *)

Lemma run_holds_start (docText : jsstring) (s : nat) (w : jsstring) :
  maximal_run docText s w -> 1 <= length w /\ word_char_at docText s = true.
Proof.
  intros (Hne & _ & Hin & _). apply nonempty_length in Hne.
  split; [exact Hne | apply Hin; lia].
Qed.

Lemma runs_ordered_same (docText : jsstring) (s s' o : nat) (w w' : jsstring) :
  maximal_run docText s w -> maximal_run docText s' w' ->
  span_contains s w o -> span_contains s' w' o ->
  s <= s' -> s = s' /\ w = w'.
Proof.
  intros Hr Hr' [Ho1 Ho2] [Ho1' Ho2'] Hle.
  destruct (run_holds_start _ _ _ Hr) as [Hn Hs].
  destruct (run_holds_start _ _ _ Hr') as [Hn' Hs'].
  destruct Hr as (_ & Hsub & Hin & Hleft & Hend).
  destruct Hr' as (_ & Hsub' & Hin' & Hleft' & Hend').
  assert (Heq : s = s').
  { destruct (Nat.eq_dec s s') as [|Hneq]; [assumption|exfalso].
    destruct (Nat.le_gt_cases (s + length w) s') as [Hfar|Hnear].
    - assert (s' = s + length w) by lia. subst s'. congruence.
    - destruct Hleft' as [->|Hl]; [lia|].
      rewrite Hin in Hl by lia. discriminate. }
  subst s'. split; [reflexivity|].
  assert (Hlen : length w = length w').
  { destruct (Nat.lt_trichotomy (length w) (length w')) as [Hlt|[E|Hgt]];
      [|exact E|].
    - rewrite Hin' in Hend by lia. discriminate.
    - rewrite Hin in Hend' by lia. discriminate. }
  rewrite <- Hsub, <- Hsub', Hlen. reflexivity.
Qed.

Lemma runs_holding_offset_same (docText : jsstring) (s s' o : nat)
      (w w' : jsstring) :
  maximal_run docText s w -> maximal_run docText s' w' ->
  span_contains s w o -> span_contains s' w' o ->
  s = s' /\ w = w'.
Proof.
  intros Hr Hr' Hc Hc'. destruct (Nat.le_ge_cases s s') as [Hle|Hge].
  - eapply runs_ordered_same; eauto.
  - destruct (runs_ordered_same _ _ _ _ _ _ Hr' Hr Hc' Hc Hge) as [-> ->]. auto.
Qed.

(** X5.  At most one maximal run of identifier characters holds a given
    offset in its span, inclusive at both ends, so the word lookup
    returns a word exactly when it is that run, and none exactly when
    there is no such run: taking the first match loses nothing. *)
Theorem word_under_cursor_is_unique (docText : jsstring) (offset : nat) :
  (forall s s' w w',
      maximal_run docText s w -> maximal_run docText s' w' ->
      span_contains s w offset -> span_contains s' w' offset ->
      s = s' /\ w = w')
  /\ (forall w,
         word_at docText offset = Normal (Some w)
         <-> exists s, maximal_run docText s w /\ span_contains s w offset)
  /\ (word_at docText offset = Normal None
      <-> forall s w, maximal_run docText s w -> ~ span_contains s w offset).
Proof.
  split; [intros; eapply runs_holding_offset_same; eauto|].
  destruct (word_at_spec docText offset) as [r [Hr Hspec]]. split.
  - intros w. split.
    + intros H. rewrite H in Hr. inversion Hr; subst r.
      destruct Hspec as (s & Hrun & Hc & _). eauto.
    + intros (s & Hrun & Hc). destruct r as [w2|].
      * destruct Hspec as (s2 & Hrun2 & Hc2 & _).
        destruct (runs_holding_offset_same _ _ _ _ _ _ Hrun Hrun2 Hc Hc2)
          as [_ ->]. exact Hr.
      * exfalso. exact (Hspec s w Hrun Hc).
  - split.
    + intros H. rewrite H in Hr. inversion Hr; subst r. exact Hspec.
    + intros H. destruct r as [w|]; [|exact Hr].
      destruct Hspec as (s & Hrun & Hc & _). exfalso. exact (H s w Hrun Hc).
Qed.

(** ** Documentation is never the empty string *)

Lemma join_holds_text (ls : list jsstring) :
  holds_text ls -> join [LF] ls <> [].
Proof.
  intros (l & Hin & Hne). destruct ls as [|a [|b ls]]; [destruct Hin| |].
  - destruct Hin as [<-|[]]. exact Hne.
  - change (join [LF] (a :: b :: ls)) with (a ++ [LF] ++ join [LF] (b :: ls)).
    intros H. apply app_eq_nil in H. destruct H as [_ H]. discriminate H.
Qed.

Lemma startsWith_nonempty (p s : jsstring) :
  p <> [] -> startsWith p (trim s) = true -> s <> [].
Proof.
  intros Hp H ->. destruct p; [congruence | discriminate H].
Qed.

Lemma holds_text_snoc (ls : list jsstring) (ln : jsstring) :
  holds_text ls \/ ln <> [] -> holds_text (ls ++ [ln]).
Proof.
  intros [(l & Hin & Hne)|Hne].
  - exists l. split; [apply in_app_iff; auto | exact Hne].
  - exists ln. split; [apply in_app_iff; right; left; reflexivity | exact Hne].
Qed.

Lemma scan_line_documentation_invariant (st : scan_state) (ln : jsstring)
      (idx : nat) :
  documentation_invariant st -> documentation_invariant (scan_line st ln idx).
Proof.
  intros (HJ & HI & HD). unfold documentation_invariant.
  scan_cases st ln; rewrite ?Einside in *.
  - assert (Hne : ln <> []) by (eapply startsWith_nonempty; [|exact Etq]; discriminate).
    repeat split; auto using holds_text_snoc.
  - assert (Hne : ln <> []) by (eapply startsWith_nonempty; [|exact Etq]; discriminate).
    repeat split; auto using holds_text_snoc.
  - repeat split; auto using holds_text_snoc.
  - assert (Hne : ln <> []) by (eapply startsWith_nonempty; [|exact Ehash]; discriminate).
    repeat split; auto using holds_text_snoc.
  - split; [discriminate|]. split; [auto|].
    intros d Hd. apply in_app_iff in Hd. destruct Hd as [Hd|[<-|[]]]; [auto|].
    cbn [documentation]. destruct HI as [->|Ht]; [discriminate|].
    destruct (currentDoc st) eqn:E; [discriminate|]. cbn [length Nat.ltb Nat.leb].
    intros H. inversion H as [H']. exact (join_holds_text _ Ht H').
  - split; [discriminate|]. auto.
  - split; [discriminate|]. auto.
Qed.

Lemma forEach_documentation_invariant (ls : list jsstring) :
  forall st idx,
    documentation_invariant st ->
    documentation_invariant (forEach scan_line st ls idx).
Proof.
  induction ls as [|ln ls IH]; intros st idx H; cbn [forEach]; [exact H|].
  apply IH. apply scan_line_documentation_invariant. exact H.
Qed.

Lemma parse_documentation_text (docText : jsstring) (d : definition) :
  In d (parseGraphQLDefinitions docText) -> documentation d <> Some [].
Proof.
  unfold parseGraphQLDefinitions.
  apply (forEach_documentation_invariant (split_lf docText) initial 0).
  unfold documentation_invariant, initial. cbn. split; [discriminate|].
  split; [auto | intros d' []].
Qed.

Lemma has_documentation_iff (docText : jsstring) (d : definition) :
  In d (parseGraphQLDefinitions docText) ->
  (has_documentation d = true <-> documentation d <> None).
Proof.
  intros Hd. pose proof (parse_documentation_text _ _ Hd) as Hne.
  unfold has_documentation.
  destruct (documentation d) as [[|c s]|];
    [exfalso; apply Hne; reflexivity| |]; cbn; split; congruence.
Qed.

(** X4.  The documentation of an entry of the scanner's output is never
    the empty string, so the test [if (def.documentation)] of the hover
    holds exactly when the entry has documentation. *)
Theorem documentation_is_never_empty (docText : jsstring) (d : definition) :
  In d (parseGraphQLDefinitions docText) ->
  documentation d <> Some []
  /\ (has_documentation d = true <-> documentation d <> None).
Proof.
  intros Hd. split.
  - exact (parse_documentation_text _ _ Hd).
  - exact (has_documentation_iff _ _ Hd).
Qed.

(** ** What the hover shows for a declaration *)

Lemma full_definition_block (lines : list jsstring) (d : definition)
      (intro : jsstring) :
  nth_error lines (line d) = Some intro ->
  exists n,
    line d + n < length lines
    /\ full_definition lines d
       = Normal (join [LF] (firstn (S n) (skipn (line d) lines))).
Proof.
  intros Hintro.
  assert (Hlt : line d < length lines)
    by (apply nth_error_Some; rewrite Hintro; discriminate).
  unfold full_definition. rewrite Hintro, (skipn_at _ _ _ Hintro).
  destruct (includes braced_kinds (kind d)).
  - destruct (brace_loop_spec (skipn (line d + 1) lines) [intro])
      as (n & Hn & Hloop & _); [discriminate|].
    rewrite brace_balance_one in Hloop. cbn [join] in Hloop.
    rewrite length_skipn in Hn. exists n. split; [lia|].
    rewrite Hloop. reflexivity.
  - destruct (str_eqb (kind d) (lit "union")).
    + rewrite (union_loop_spec _ [intro]) by discriminate.
      exists (length (take_while continues_union (skipn (line d + 1) lines))).
      pose proof (take_drop_while continues_union (skipn (line d + 1) lines)) as H.
      apply (f_equal (@length _)) in H. rewrite length_app, length_skipn in H.
      split; [lia|]. cbn [firstn app]. rewrite firstn_take_while. reflexivity.
    + exists 0. split; [lia | reflexivity].
Qed.

(** X9.  For a word that is not taken for a built-in scalar and that a
    declaration is named by, the hover is markdown that holds, between
    the opening fence with [graphql] and the closing fence, the
    documentation of the first such declaration when it has one, and then
    a block of consecutive lines of the document that starts at the line
    of the declaration and ends within the document. *)
Theorem hover_shows_documentation_and_lines (docText : jsstring)
        (offset : nat) (w : jsstring) (d : definition) :
  word_at docText offset = Normal (Some w) ->
  truthy (get BUILTIN_SCALARS w) = false ->
  find_definition (parseGraphQLDefinitions docText) w = Some d ->
  exists n,
    line d + n < length (split_lf docText)
    /\ onHover (Some docText) offset
       = Normal (Some (LSP.mkHover (lit "markdown")
           (FENCE ++ lit "graphql" ++ [LF]
            ++ match documentation d with
               | Some s => s ++ [LF]
               | None => []
               end
            ++ join [LF] (firstn (S n) (skipn (line d) (split_lf docText)))
            ++ [LF] ++ FENCE))).
Proof.
  intros Hw Hb Hfind.
  destruct (find_definition_Some _ _ _ Hfind) as [Hin _].
  destruct (parse_origin _ _ Hin) as (ln & m & Hln & _).
  destruct (full_definition_block _ _ _ Hln) as (n & Hn & Hfull).
  exists n. split; [exact Hn|].
  unfold onHover. rewrite Hw. cbn [bind].
  rewrite (word_at_nonempty _ _ _ Hw), Hb, Hfind, Hfull. cbn [bind].
  unfold markdown, hover_content.
  pose proof (has_documentation_iff docText d Hin) as Hdoc.
  destruct (documentation d) as [s|] eqn:E.
  - assert (Hh : has_documentation d = true) by (apply Hdoc; discriminate).
    rewrite Hh. rewrite <- !app_assoc. reflexivity.
  - unfold has_documentation. rewrite E. rewrite <- !app_assoc. reflexivity.
Qed.

(** ** The lines of a document *)

Lemma eq_unit_false (a b : code_unit) : eq_unit a b = false <-> a <> b.
Proof. unfold eq_unit. apply N.eqb_neq. Qed.

Lemma join_split_lf (s : jsstring) : join [LF] (split_lf s) = s.
Proof.
  induction s as [|c t IH]; cbn [split_lf]; [reflexivity|].
  pose proof (split_lf_nonempty t) as Hne.
  destruct (split_lf t) as [|l ls]; [congruence|].
  destruct (eq_unit c LF) eqn:E.
  - apply eq_unit_true in E. subst c.
    change (join [LF] ([] :: l :: ls)) with ([] ++ [LF] ++ join [LF] (l :: ls)).
    rewrite IH. reflexivity.
  - destruct ls as [|b r].
    + cbn [join] in *. rewrite IH. reflexivity.
    + change (join [LF] ((c :: l) :: b :: r))
        with (c :: (l ++ [LF] ++ join [LF] (b :: r))).
      change (join [LF] (l :: b :: r)) with (l ++ [LF] ++ join [LF] (b :: r)) in IH.
      rewrite IH. reflexivity.
Qed.

Lemma split_lf_lines_hold_no_LF (s : jsstring) :
  Forall (fun l => ~ In LF l) (split_lf s).
Proof.
  induction s as [|c t IH]; cbn [split_lf].
  - constructor; [intros [] | constructor].
  - destruct (eq_unit c LF) eqn:E.
    + constructor; [intros [] | exact IH].
    + apply eq_unit_false in E. destruct (split_lf t) as [|l ls].
      * constructor; [|constructor]. intros [H|[]]. congruence.
      * inversion IH as [|? ? Hl Hls]; subst. constructor; [|exact Hls].
        intros [H|H]; [congruence | exact (Hl H)].
Qed.

Lemma split_lf_length (s : jsstring) :
  length (split_lf s) = S (count_occ N.eq_dec s LF).
Proof.
  induction s as [|c t IH]; cbn [split_lf count_occ]; [reflexivity|].
  destruct (N.eq_dec c LF) as [->|Hne].
  - cbn. rewrite IH. reflexivity.
  - apply eq_unit_false in Hne. rewrite Hne.
    pose proof (split_lf_nonempty t) as Hn.
    destruct (split_lf t) as [|l ls]; [congruence|]. exact IH.
Qed.

Lemma split_lf_line_then (l rest : jsstring) :
  ~ In LF l -> split_lf (l ++ LF :: rest) = l :: split_lf rest.
Proof.
  induction l as [|c l IH]; intros Hno; [reflexivity|].
  cbn [app split_lf].
  assert (Hc : eq_unit c LF = false)
    by (apply eq_unit_false; intros ->; apply Hno; left; reflexivity).
  rewrite Hc, IH by (intros H; apply Hno; right; exact H). reflexivity.
Qed.

Lemma split_lf_one_line (l : jsstring) : ~ In LF l -> split_lf l = [l].
Proof.
  induction l as [|c l IH]; intros Hno; [reflexivity|].
  cbn [split_lf].
  assert (Hc : eq_unit c LF = false)
    by (apply eq_unit_false; intros ->; apply Hno; left; reflexivity).
  rewrite Hc, IH by (intros H; apply Hno; right; exact H). reflexivity.
Qed.

Lemma split_lf_join (ls : list jsstring) :
  ls <> [] -> Forall (fun l => ~ In LF l) ls -> split_lf (join [LF] ls) = ls.
Proof.
  induction ls as [|a ls IH]; [congruence|]. intros _ Hall.
  inversion Hall as [|? ? Ha Hls]; subst. destruct ls as [|b r].
  - apply split_lf_one_line. exact Ha.
  - change (join [LF] (a :: b :: r)) with (a ++ LF :: join [LF] (b :: r)).
    rewrite split_lf_line_then by exact Ha. rewrite IH; [reflexivity| |exact Hls].
    discriminate.
Qed.

Lemma split_lf_app (a b : jsstring) :
  split_lf (a ++ LF :: b) = split_lf a ++ split_lf b.
Proof.
  induction a as [|c t IH]; [reflexivity|]. cbn [app split_lf]. rewrite IH.
  pose proof (split_lf_nonempty t) as Hne.
  destruct (eq_unit c LF); [reflexivity|].
  destruct (split_lf t) as [|l ls]; [congruence | reflexivity].
Qed.

(** X8.  Splitting a text at its line feeds and joining the lines with
    line feeds gives the text back; the lines hold no line feed and are
    one more than the line feeds of the text; and lines that hold no
    line feed come back from their joined text. *)
Theorem lines_round_trip :
  (forall s,
      join [LF] (split_lf s) = s
      /\ Forall (fun l => ~ In LF l) (split_lf s)
      /\ length (split_lf s) = S (count_occ N.eq_dec s LF))
  /\ (forall ls,
         ls <> [] -> Forall (fun l => ~ In LF l) ls ->
         split_lf (join [LF] ls) = ls).
Proof.
  split.
  - intros s. split; [apply join_split_lf|].
    split; [apply split_lf_lines_hold_no_LF | apply split_lf_length].
  - exact split_lf_join.
Qed.

(** X10.  The declarations found in a text stay as they are when a line
    feed and more text are appended: the scanner's output for the longer
    text begins with its output for the shorter one, and what is added
    lies on the appended lines. *)
Theorem declarations_survive_appending (a b : jsstring) :
  exists more,
    parseGraphQLDefinitions (a ++ LF :: b) = parseGraphQLDefinitions a ++ more
    /\ forall d, In d more -> length (split_lf a) <= line d.
Proof.
  unfold parseGraphQLDefinitions. rewrite split_lf_app, forEach_app.
  destruct (forEach_scan (split_lf a) initial []) as (_ & _ & Hdoc);
    [reflexivity|].
  cbn [app length inMultiLineComment initial] in Hdoc.
  pose proof (forEach_scan (split_lf b)
                (forEach scan_line initial (split_lf a) 0)
                (classified false (split_lf a)) Hdoc) as (Hdefs & _).
  rewrite classified_length in Hdefs. cbn [Nat.add]. rewrite Hdefs.
  eexists. split; [reflexivity|].
  intros d Hd. apply declarations_from_line in Hd.
  rewrite classified_length in Hd. lia.
Qed.

(** ** Go to definition and hover *)



(** X6.  Wherever go to definition finds a location the hover shows
    something; and wherever the hover shows something, either go to
    definition finds a location or the word is one the hover takes for a
    built-in scalar. *)
Theorem hover_whenever_definition (uri docText : jsstring) (offset : nat) :
  (forall loc,
      onDefinition uri (Some docText) offset = Normal (Some loc) ->
      exists h, onHover (Some docText) offset = Normal (Some h))
  /\ (forall h,
         onHover (Some docText) offset = Normal (Some h) ->
         (exists loc, onDefinition uri (Some docText) offset = Normal (Some loc))
         \/ exists w, word_at docText offset = Normal (Some w)
                      /\ (In w builtin_names \/ In w (map fst Object_prototype))).
Proof.
  unfold onDefinition, onHover.
  destruct (word_at_spec docText offset) as [r [Hr _]]. rewrite Hr. cbn [bind].
  destruct r as [w|]; [|split; intros ? H; discriminate H].
  rewrite (word_at_nonempty _ _ _ Hr).
  destruct (truthy (get BUILTIN_SCALARS w)) eqn:Eb.
  - split; [eauto|]. intros h _. right. exists w. split; [reflexivity|].
    apply builtin_branch_iff. exact Eb.
  - destruct (find_definition (parseGraphQLDefinitions docText) w) as [d|] eqn:E.
    + destruct (find_definition_Some _ _ _ E) as [Hin _].
      destruct (parse_origin _ _ Hin) as (ln & m & Hln & _).
      destruct (full_definition_normal _ _ _ Hln) as [s ->]. cbn [bind].
      split; eauto.
    + split; intros ? H; discriminate H.
Qed.

(** ** Counting braces, and the flag of the scanner *)

(** X11.  The number of matches of a one-character global pattern in a
    string is the number of occurrences of the character, so the change
    of the brace count on a line is its count of [{] less its count of
    [}]. *)
Theorem brace_count_is_occurrences (s : jsstring) :
  (forall c, match_count (RChar (eq_unit c)) s = count_occ N.eq_dec s c)
  /\ brace_delta s
     = (Z.of_nat (count_occ N.eq_dec s OPEN_BRACE)
        - Z.of_nat (count_occ N.eq_dec s CLOSE_BRACE))%Z.
Proof.
  split; [intros c; apply match_count_char | apply brace_delta_count].
Qed.

(** X14.  After the scanner has gone over some lines, starting outside a
    block comment, it is inside one exactly when it has met an odd number
    of lines whose trimmed text begins with the triple quote and does not
    hold it exactly twice. *)
Theorem flag_is_parity_of_delimiters (ls : list jsstring) (idx : nat) :
  inMultiLineComment (forEach scan_line initial ls idx)
  = Nat.odd (length (filter toggles ls)).
Proof.
  assert (H : forall l st i,
             inMultiLineComment (forEach scan_line st l i)
             = inside_after (inMultiLineComment st) l).
  { induction l as [|ln l IH]; intros st i; [reflexivity|].
    cbn [forEach]. rewrite IH, scan_line_flag. reflexivity. }
  rewrite H, inside_after_parity. reflexivity.
Qed.

(** ** The built-in branch of the hover *)

(** X12.  The hover takes its built-in branch exactly for the words that
    are one of the five names of [BUILTIN_SCALARS] or the name of a
    member of [Object.prototype]; for such a word under the cursor it
    returns the text made from the word and the value found, whatever the
    document declares. *)
Theorem builtin_branch_exact (w : jsstring) :
  (truthy (get BUILTIN_SCALARS w) = true
   <-> In w builtin_names \/ In w (map fst Object_prototype))
  /\ (forall docText offset,
         word_at docText offset = Normal (Some w) ->
         In w builtin_names \/ In w (map fst Object_prototype) ->
         onHover (Some docText) offset
         = Normal (Some (markdown (builtin_content w)))).
Proof.
  split; [apply builtin_branch_iff|].
  intros docText offset Hw Hin. apply builtin_branch_iff in Hin.
  unfold onHover. rewrite Hw. cbn [bind].
  rewrite (word_at_nonempty _ _ _ Hw), Hin. reflexivity.
Qed.

(** X13.  Each of the five names has one description in
    [BUILTIN_SCALARS], and with the name under the cursor the hover is
    the fenced [scalar] line of the name, an empty line and that
    description, for every document and offset. *)
Theorem builtin_hover_is_fixed (w : jsstring) :
  In w builtin_names ->
  exists description,
    own_property BUILTIN_SCALARS w = Some description
    /\ description <> []
    /\ forall docText offset,
         word_at docText offset = Normal (Some w) ->
         onHover (Some docText) offset
         = Normal (Some (LSP.mkHover (lit "markdown")
             (FENCE ++ lit "graphql" ++ [LF] ++ lit "scalar " ++ w ++ [LF]
                    ++ FENCE ++ [LF; LF] ++ description))).
Proof.
  intros Hin.
  destruct (own_property BUILTIN_SCALARS w) as [v|] eqn:E.
  2:{ apply own_property_None in E. contradiction. }
  assert (Ht : truthy (get BUILTIN_SCALARS w) = true)
    by (apply builtin_branch_iff; left; exact Hin).
  exists v. split; [reflexivity|]. split.
  { unfold get in Ht. rewrite E in Ht. cbn [truthy] in Ht.
    intros ->. discriminate Ht. }
  intros docText offset Hw. unfold onHover. rewrite Hw. cbn [bind].
  rewrite (word_at_nonempty _ _ _ Hw), Ht.
  unfold markdown, builtin_content, get. rewrite E. reflexivity.
Qed.

(** ** The scanner finds every declaration *)

Lemma keyword_head_is_word (k ln : jsstring) :
  In k kind_keywords -> startsWith k ln = true ->
  exists c t, ln = c :: t /\ is_word c = true.
Proof.
  unfold kind_keywords. cbn [In]. intros H Hsw.
  assert (Hk : exists a k', k = a :: k' /\ is_word a = true).
  { repeat (destruct H as [<-|H];
            [match goal with
             | |- exists a k', ?k = _ /\ _ =>
                 exists (hd 0%N k), (tl k); split; reflexivity
             end|]).
    destruct H. }
  destruct Hk as (a & k' & -> & Ha).
  destruct ln as [|c t]; [discriminate Hsw|].
  cbn [startsWith] in Hsw. apply andb_true_iff in Hsw. destruct Hsw as [Hc _].
  apply eq_unit_true in Hc. subst c. eauto.
Qed.

Lemma word_is_no_marker (c : code_unit) :
  is_word c = true ->
  is_space c = false /\ eq_unit QUOTE c = false /\ eq_unit 35%N c = false.
Proof.
  intros Hw. split.
  - destruct (is_space c) eqn:E; [|reflexivity].
    rewrite (is_space_not_word _ E) in Hw. discriminate.
  - unfold_classes Hw. split; apply eq_unit_false; unfold QUOTE; lia.
Qed.

Lemma declares_not_comment (ln k n : jsstring) :
  declares ln k n ->
  startsWith TRIPLE_QUOTE (trim ln) = false
  /\ startsWith (lit "#") (trim ln) = false.
Proof.
  intros (Hk & Hsw & _).
  destruct (keyword_head_is_word _ _ Hk Hsw) as (c & t & Hln & Hw).
  destruct (word_is_no_marker _ Hw) as (Hsp & Hq & Hh).
  destruct (trim_keeps_prefix _ _ _ Hln Hsp) as (tr & Htr & Hall).
  destruct (trim ln) as [|x r].
  - split; reflexivity.
  - rewrite Hln in Htr. inversion Htr; subst x.
    cbn [TRIPLE_QUOTE startsWith lit map list_ascii_of_string].
    change (N_of_ascii "#") with 35%N. rewrite Hq, Hh. split; reflexivity.
Qed.

Lemma declarations_from_app (l1 l2 : list (jsstring * line_class)) :
  forall before,
    declarations_from before (l1 ++ l2)
    = declarations_from before l1 ++ declarations_from (before ++ l1) l2.
Proof.
  induction l1 as [|x l1 IH]; intros before; cbn [app declarations_from].
  - rewrite app_nil_r. reflexivity.
  - rewrite IH, <- !app_assoc. reflexivity.
Qed.

Lemma classify_declaration (inside : bool) (ln : jsstring) :
  classify inside ln = DeclarationLine -> inside = false.
Proof.
  unfold classify. destruct inside; [|reflexivity].
  rewrite orb_true_r. cbn [orb]. discriminate.
Qed.

(** X15.  The entries of the scanner's output are exactly the lines of
    the document that have the shape of a declaration and are met outside
    a block comment: such a line at index [i] with keyword [k] and
    identifier [n] gives an entry with that line, kind and name, and every
    entry comes from such a line. *)
Theorem scanner_finds_every_declaration (docText : jsstring) (i : nat)
        (k n : jsstring) :
  (exists d, In d (parseGraphQLDefinitions docText)
             /\ line d = i /\ kind d = k /\ name d = n)
  <-> (exists ln, nth_error (split_lf docText) i = Some ln
                  /\ declares ln k n
                  /\ inside_after false (firstn i (split_lf docText)) = false).
Proof.
  split.
  - intros (d & Hd & <- & <- & <-).
    destruct (parse_origin _ _ Hd) as (ln & m & Hln & Hcls & Hm & Hk & Hn & _).
    exists ln. split; [exact Hln|]. split.
    + rewrite Hk, Hn. apply (proj1 (declaration_pattern_exact_aux ln)). exact Hm.
    + eapply classify_declaration. exact Hcls.
  - intros (ln & Hln & Hdec & Hin).
    destruct (proj2 (declaration_pattern_exact_aux ln) k n Hdec)
      as (m & Hm & Hk & Hn).
    destruct (declares_not_comment _ _ _ Hdec) as [Hq Hh].
    destruct (nth_error_split _ _ Hln) as (l1 & l2 & Hsplit & Hlen).
    assert (Hfirst : firstn i (split_lf docText) = l1).
    { rewrite Hsplit, <- Hlen, firstn_app, Nat.sub_diag, firstn_all.
      cbn [firstn]. apply app_nil_r. }
    rewrite Hfirst in Hin.
    exists (mkDefinition k n i (trim ln)
              (documentation_of (preceding_run (classified false l1)))).
    split; [|auto].
    rewrite parse_declarations, Hsplit, classified_app, declarations_from_app.
    apply in_app_iff. right. cbn [classified declarations_from app].
    apply in_app_iff. left. unfold declaration_at. cbn [fst snd].
    unfold classify. rewrite Hq, Hin, Hh, Hm. cbn [orb].
    rewrite classified_length, Hlen, Hk, Hn. left. reflexivity.
Qed.

(** ** The further properties at concrete documents *)

Lemma scanned_entry_shape_witness :
  In User_in_documented (parseGraphQLDefinitions documented)
  /\ exists ln trailing,
       nth_error (split_lf documented) (line User_in_documented) = Some ln
       /\ declares ln (kind User_in_documented) (name User_in_documented)
       /\ forallb is_word (name User_in_documented) = true
       /\ text User_in_documented = trim ln
       /\ text User_in_documented = rev (drop_while is_space (rev ln))
       /\ ln = text User_in_documented ++ trailing
       /\ forallb is_space trailing = true
       /\ (forall c t, ln = c :: t -> is_space c = false).
Proof.
  assert (H : In User_in_documented (parseGraphQLDefinitions documented))
    by (vm_compute; left; reflexivity).
  split; [exact H|].
  exact (scanned_entry_shape documented User_in_documented H).
Defined.

Lemma documentation_is_never_empty_witness :
  In User_in_documented (parseGraphQLDefinitions documented)
  /\ documentation User_in_documented <> Some []
  /\ (has_documentation User_in_documented = true
      <-> documentation User_in_documented <> None).
Proof.
  assert (H : In User_in_documented (parseGraphQLDefinitions documented))
    by (vm_compute; left; reflexivity).
  split; [exact H|].
  exact (documentation_is_never_empty documented User_in_documented H).
Defined.

Lemma hover_shows_documentation_and_lines_witness :
  exists n,
    line User_in_documented + n < length (split_lf documented)
    /\ onHover (Some documented) 23
       = Normal (Some (LSP.mkHover (lit "markdown")
           (FENCE ++ lit "graphql" ++ [LF]
            ++ match documentation User_in_documented with
               | Some s => s ++ [LF]
               | None => []
               end
            ++ join [LF] (firstn (S n) (skipn (line User_in_documented)
                                              (split_lf documented)))
            ++ [LF] ++ FENCE))).
Proof.
  apply (hover_shows_documentation_and_lines documented 23 (lit "User")
           User_in_documented); vm_compute; reflexivity.
Defined.


Lemma hover_whenever_definition_witness :
  exists h, onHover (Some user_type) 7 = Normal (Some h).
Proof.
  apply (proj1 (hover_whenever_definition some_uri user_type 7)
               (LSP.mkLocation some_uri
                  (LSP.mkRange (LSP.mkPosition 0 0) (LSP.mkPosition 0 11)))).
  reflexivity.
Defined.

Lemma lines_round_trip_witness :
  split_lf (join [LF] [lit "type A {"; lit ""; lit "}"])
  = [lit "type A {"; lit ""; lit "}"].
Proof.
  apply (proj2 lines_round_trip); [discriminate|].
  repeat constructor; intros H; vm_compute in H;
    repeat (destruct H as [H|H]; [discriminate H|]); exact H.
Defined.

Lemma builtin_branch_exact_witness :
  onHover (Some scalar_constructor) 9
  = Normal (Some (markdown (builtin_content (lit "constructor")))).
Proof.
  apply (proj2 (builtin_branch_exact (lit "constructor")) scalar_constructor 9).
  - reflexivity.
  - right. left. reflexivity.
Defined.

Lemma builtin_hover_is_fixed_witness :
  exists description,
    own_property BUILTIN_SCALARS (lit "Boolean") = Some description
    /\ description <> []
    /\ forall docText offset,
         word_at docText offset = Normal (Some (lit "Boolean")) ->
         onHover (Some docText) offset
         = Normal (Some (LSP.mkHover (lit "markdown")
             (FENCE ++ lit "graphql" ++ [LF] ++ lit "scalar " ++ lit "Boolean"
                    ++ [LF] ++ FENCE ++ [LF; LF] ++ description))).
Proof.
  apply (builtin_hover_is_fixed (lit "Boolean")).
  do 3 right. left. reflexivity.
Defined.

Lemma scanner_finds_every_declaration_witness :
  exists d, In d (parseGraphQLDefinitions documented)
            /\ line d = 5 /\ kind d = lit "type" /\ name d = lit "User".
Proof.
  apply (proj2 (scanner_finds_every_declaration documented 5 (lit "type")
                                                (lit "User"))).
  exists (lit "type User {"). split; [reflexivity|]. split; [|reflexivity].
  unfold declares. split; [left; reflexivity|]. split; [reflexivity|].
  split; [discriminate|]. split; [reflexivity | discriminate].
Defined.
